(** * DarkVault: the vault ledger and the client cipher envelope

    A shallow embedding of the [DarkVault] contract (createVault,
    rotateVaultKey, storeSecret and the four read accessors) and of the
    client-side helpers [encryptSecret] / [decryptSecret] of the front end,
    with the properties of the specification stated over them. *)

From Stdlib Require Import ZArith NArith List String Ascii Bool Lia.
From Stdlib.Strings Require Import Byte.
From stdpp Require Import base gmap strings list.

Local Open Scope N_scope.

(** ** Part I: the vault ledger *)

Module Ledger.

(** Solidity value types.  An [address] is a 160-bit word, an [eaddress] and
    an [externalEaddress] are [bytes32] handles, a [uint256] is a 256-bit
    word; none of them takes part in wrapping arithmetic here, so they are
    plain binary naturals.  A Solidity [string] / [bytes] value is a byte
    sequence, which is what [string] is. *)
Abbreviation address := N (only parsing).
Abbreviation eaddress := N (only parsing).
Abbreviation externalEaddress := N (only parsing).
Abbreviation uint256 := N (only parsing).
Abbreviation bytes := string (only parsing).

(** [struct Vault] *)
Record Vault := mkVault {
  encryptedKey : eaddress;
  initialized : bool;
  ciphertexts : list string
}.

(** The value every slot of a [mapping(address => Vault)] holds before it is
    written: the zero handle, [false], the empty array. *)
Definition zero_vault : Vault := mkVault 0 false [].

#[export] Instance Vault_inhabited : Inhabited Vault := populate zero_vault.

Inductive Event :=
| VaultCreated (owner : address)
| VaultKeyRotated (owner : address)
| SecretStored (owner : address) (index : uint256).

(** The three custom errors of the contract, the failure of the access layer
    to validate an input, and the compiler-inserted [Panic] (checked
    arithmetic, array bounds). *)
Inductive Error :=
| VaultAlreadyExists
| VaultMissing
| SecretIndexOutOfBounds
| InvalidInputProof
| Panic.

#[export] Instance Error_eq_dec : EqDecision Error.
Proof. solve_decision. Defined.

(** What a transaction can observe and change: the contract storage
    ([vaults]), the persistent allow-list of the encrypted-value access layer
    ([grants], pairs of a handle and an account allowed on it), and the
    event log. *)
Record World := mkWorld {
  vaults : gmap N Vault;
  grants : gset (N * N);
  logs : list Event
}.

Inductive Result (A : Type) :=
| Ok (a : A)
| Revert (e : Error).
Arguments Ok {A} a.
Arguments Revert {A} e.

(** Contract code: a state transformer that may revert. *)
Definition M (A : Type) : Type := World -> Result (A * World).

#[export] Instance M_ret : MRet M := fun A a w => Ok (a, w).
#[export] Instance M_bind : MBind M := fun A B f m w =>
  match m w with
  | Ok (a, w') => f a w'
  | Revert e => Revert e
  end.

Definition revert {A} (e : Error) : M A := fun _ => Revert e.

(** [vaults[a]] read as a whole record. *)
Definition sload (a : address) : M Vault :=
  fun w => Ok (vaults w !!! a, w).

Definition modify_vault (a : address) (f : Vault -> Vault) : M unit :=
  fun w => Ok (tt, mkWorld (<[a := f (vaults w !!! a)]> (vaults w)) (grants w) (logs w)).

(** [vaults[a].encryptedKey = k] *)
Definition set_encryptedKey (a : address) (k : eaddress) : M unit :=
  modify_vault a (fun v => mkVault k (initialized v) (ciphertexts v)).

(** [vaults[a].initialized = b] *)
Definition set_initialized (a : address) (b : bool) : M unit :=
  modify_vault a (fun v => mkVault (encryptedKey v) b (ciphertexts v)).

(** [vaults[a].ciphertexts.push(c)].  The array length is a natural number:
    the 2^256 limit of a storage array is out of reach of any execution. *)
Definition push_ciphertext (a : address) (c : string) : M unit :=
  modify_vault a (fun v => mkVault (encryptedKey v) (initialized v) (ciphertexts v ++ [c])).

Definition emit (e : Event) : M unit :=
  fun w => Ok (tt, mkWorld (vaults w) (grants w) (logs w ++ [e])).

(** Checked [uint256] subtraction of Solidity 0.8. *)
Definition checked_sub (a b : uint256) : M uint256 :=
  if a <? b then revert Panic else mret (a - b).

Section Contract.

(** The deployed contract's own address, [address(this)]. *)
Variable this : address.

(** [FHE.fromExternal] belongs to the access layer, not to this repository:
    it checks the pair of an external handle and its proof in the context of
    the sender and yields the validated handle, or fails. *)
Variable fromExternal : address -> externalEaddress -> bytes -> option eaddress.

Definition FHE_fromExternal (msg_sender : address) (h : externalEaddress) (inputProof : bytes)
  : M eaddress :=
  match fromExternal msg_sender h inputProof with
  | Some k => mret k
  | None => revert InvalidInputProof
  end.

(** Modelled from the spec: [FHE.allow] and [FHE.allowThis] are the access
    layer's [grantAccess(value, identity)] and [grantSelfAccess(value)],
    which are idempotent and extend the value's authorized-decryptor set. *)
Definition FHE_allow (k : eaddress) (who : address) : M unit :=
  fun w => Ok (tt, mkWorld (vaults w) ({[ (k, who) ]} ∪ grants w) (logs w)).

Definition FHE_allowThis (k : eaddress) : M unit := FHE_allow k this.

Definition createVault (msg_sender : address) (encryptedKey : externalEaddress)
    (inputProof : bytes) : M unit :=
  v ← sload msg_sender;
  if initialized v then revert VaultAlreadyExists
  else
    validatedKey ← FHE_fromExternal msg_sender encryptedKey inputProof;
    set_encryptedKey msg_sender validatedKey;;
    set_initialized msg_sender true;;
    FHE_allowThis validatedKey;;
    FHE_allow validatedKey msg_sender;;
    emit (VaultCreated msg_sender).

Definition rotateVaultKey (msg_sender : address) (encryptedKey : externalEaddress)
    (inputProof : bytes) : M unit :=
  v ← sload msg_sender;
  if negb (initialized v) then revert VaultMissing
  else
    validatedKey ← FHE_fromExternal msg_sender encryptedKey inputProof;
    set_encryptedKey msg_sender validatedKey;;
    FHE_allowThis validatedKey;;
    FHE_allow validatedKey msg_sender;;
    emit (VaultKeyRotated msg_sender).

Definition storeSecret (msg_sender : address) (ciphertext : string) : M unit :=
  v ← sload msg_sender;
  if negb (initialized v) then revert VaultMissing
  else
    push_ciphertext msg_sender ciphertext;;
    v' ← sload msg_sender;
    index ← checked_sub (N.of_nat (length (ciphertexts v'))) 1;
    emit (SecretStored msg_sender index).

Definition hasVault (owner : address) : M bool :=
  v ← sload owner; mret (initialized v).

Definition getVaultKey (owner : address) : M eaddress :=
  v ← sload owner; mret (encryptedKey v).

Definition getSecretCount (owner : address) : M uint256 :=
  v ← sload owner; mret (N.of_nat (length (ciphertexts v))).

(** The explicit guard comes first; the indexing [ciphertexts[index]] keeps
    the bounds check the compiler puts on every array access. *)
Definition getSecret (owner : address) (index : uint256) : M string :=
  v ← sload owner;
  if N.of_nat (length (ciphertexts v)) <=? index then revert SecretIndexOutOfBounds
  else
    match ciphertexts v !! N.to_nat index with
    | Some c => mret c
    | None => revert Panic
    end.

(** *** Transactions *)

Inductive Call :=
| CreateVault (encryptedKey : externalEaddress) (inputProof : bytes)
| RotateVaultKey (encryptedKey : externalEaddress) (inputProof : bytes)
| StoreSecret (ciphertext : string).

Record Tx := mkTx { sender : address; call : Call }.

Definition dispatch (tx : Tx) : M unit :=
  match call tx with
  | CreateVault k p => createVault (sender tx) k p
  | RotateVaultKey k p => rotateVaultKey (sender tx) k p
  | StoreSecret c => storeSecret (sender tx) c
  end.

(** A transaction that reverts leaves the world as it was. *)
Definition outcome (w : World) (tx : Tx) : option Error :=
  match dispatch tx w with
  | Ok _ => None
  | Revert e => Some e
  end.

Definition next (w : World) (tx : Tx) : World :=
  match dispatch tx w with
  | Ok (_, w') => w'
  | Revert _ => w
  end.

Definition succeeds (w : World) (tx : Tx) : bool :=
  match outcome w tx with None => true | Some _ => false end.

Fixpoint run (w : World) (txs : list Tx) : World :=
  match txs with
  | [] => w
  | tx :: rest => run (next w tx) rest
  end.

(** The transactions of [txs] that succeed when run in order from [w]. *)
Fixpoint successful (w : World) (txs : list Tx) : list Tx :=
  match txs with
  | [] => []
  | tx :: rest =>
      (if succeeds w tx then [tx] else []) ++ successful (next w tx) rest
  end.

(** What an [eth_call] of a read accessor returns. *)
Definition view {A} (m : M A) (w : World) : Result A :=
  match m w with
  | Ok (a, _) => Ok a
  | Revert e => Revert e
  end.

(** The world right after deployment: empty storage, whatever grants the
    shared access layer already holds, no events of this contract. *)
Definition genesis (g : gset (N * N)) : World := mkWorld ∅ g [].

Inductive reachable : World -> Prop :=
| reachable_genesis g : reachable (genesis g)
| reachable_next w tx : reachable w -> reachable (next w tx).

(** The ciphertexts a list of transactions submits as [owner]. *)
Definition submitted (owner : address) (txs : list Tx) : list string :=
  flat_map (fun tx =>
    match call tx with
    | StoreSecret c => if decide (sender tx = owner) then [c] else []
    | _ => []
    end) txs.

Definition is_createVault_by (owner : address) (tx : Tx) : bool :=
  match call tx with
  | CreateVault _ _ => bool_decide (sender tx = owner)
  | _ => false
  end.

End Contract.

End Ledger.

(** ** Part II: the client cipher envelope *)

Module Cipher.

(** A JavaScript string is a sequence of UTF-16 code units, each below
    2^16; a [Uint8Array] is a sequence of bytes. *)
Abbreviation jsstring := (list N) (only parsing).
Abbreviation Uint8Array := (list byte) (only parsing).

#[export] Instance byte_eq_decision : EqDecision byte := Byte.byte_eq_dec.

(** Storing a number in a [Uint8Array] keeps its low eight bits. *)
Definition uint8 (n : N) : byte :=
  match Byte.of_N (n mod 256) with
  | Some b => b
  | None => x00
  end.

(** What a promise of the front end settles to. *)
Inductive Thrown :=
| UnsupportedCiphertextFormat   (* [new Error('Unsupported ciphertext format')] *)
| InvalidCharacterError         (* from [btoa] / [atob] *)
| OperationError.               (* from [crypto.subtle.decrypt] *)

Inductive Settled (A : Type) :=
| Resolved (a : A)
| Rejected (e : Thrown).
Arguments Resolved {A} a.
Arguments Rejected {A} e.

Definition and_then {A B} (m : Settled A) (f : A -> Settled B) : Settled B :=
  match m with
  | Resolved a => f a
  | Rejected e => Rejected e
  end.

(** *** Platform text codecs *)

Definition is_lead_surrogate (c : N) : bool := (0xD800 <=? c) && (c <=? 0xDBFF).
Definition is_trail_surrogate (c : N) : bool := (0xDC00 <=? c) && (c <=? 0xDFFF).

(** [String.prototype.isWellFormed]: 16-bit units, every surrogate paired. *)
Fixpoint isWellFormed (s : jsstring) : bool :=
  match s with
  | [] => true
  | c :: rest =>
      if is_lead_surrogate c then
        match rest with
        | d :: rest' => is_trail_surrogate d && isWellFormed rest'
        | [] => false
        end
      else negb (is_trail_surrogate c) && (c <? 0x10000) && isWellFormed rest
  end.

(** The scalar values of a string, as [TextEncoder.encode] reads it: a
    surrogate pair is one scalar value, a lone surrogate becomes U+FFFD. *)
Fixpoint scalar_values (s : jsstring) : list N :=
  match s with
  | [] => []
  | c :: rest =>
      if is_lead_surrogate c then
        match rest with
        | d :: rest' =>
            if is_trail_surrogate d
            then (0x10000 + N.shiftl (c - 0xD800) 10 + (d - 0xDC00)) :: scalar_values rest'
            else 0xFFFD :: scalar_values rest
        | [] => [0xFFFD]
        end
      else if is_trail_surrogate c then 0xFFFD :: scalar_values rest
      else c :: scalar_values rest
  end.

(** The UTF-8 encoder: one to four bytes per scalar value. *)
Definition utf8_bytes (cp : N) : list N :=
  if cp <? 0x80 then [cp]
  else if cp <? 0x800 then
    [N.shiftr cp 6 + 0xC0; N.lor 0x80 (N.land cp 0x3F)]
  else if cp <? 0x10000 then
    [N.shiftr cp 12 + 0xE0;
     N.lor 0x80 (N.land (N.shiftr cp 6) 0x3F);
     N.lor 0x80 (N.land cp 0x3F)]
  else
    [N.shiftr cp 18 + 0xF0;
     N.lor 0x80 (N.land (N.shiftr cp 12) 0x3F);
     N.lor 0x80 (N.land (N.shiftr cp 6) 0x3F);
     N.lor 0x80 (N.land cp 0x3F)].

(** [textEncoder.encode(s)] *)
Definition TextEncoder_encode (s : jsstring) : Uint8Array :=
  map uint8 (flat_map utf8_bytes (scalar_values s)).

(** The state of the UTF-8 decoder between two bytes. *)
Record utf8_state := mk_utf8_state {
  code_point : N;
  bytes_seen : N;
  bytes_needed : N;
  lower_boundary : N;
  upper_boundary : N
}.

Definition utf8_initial : utf8_state := mk_utf8_state 0 0 0 0x80 0xBF.

(** The decoder on a byte when no byte of a sequence is pending: the code
    points it emits and the state it moves to. *)
Definition utf8_lead (b : N) : list N * utf8_state :=
  if b <=? 0x7F then ([b], utf8_initial)
  else if (0xC2 <=? b) && (b <=? 0xDF) then
    ([], mk_utf8_state (N.land b 0x1F) 0 1 0x80 0xBF)
  else if (0xE0 <=? b) && (b <=? 0xEF) then
    ([], mk_utf8_state (N.land b 0xF) 0 2
           (if b =? 0xE0 then 0xA0 else 0x80) (if b =? 0xED then 0x9F else 0xBF))
  else if (0xF0 <=? b) && (b <=? 0xF4) then
    ([], mk_utf8_state (N.land b 0x7) 0 3
           (if b =? 0xF0 then 0x90 else 0x80) (if b =? 0xF4 then 0x8F else 0xBF))
  else ([0xFFFD], utf8_initial).

(** The decoder in replacement mode over the whole input.  A byte that
    cannot continue the pending sequence yields U+FFFD and is then read
    again as a first byte; an input that ends inside a sequence yields
    U+FFFD. *)
Fixpoint utf8_decode (st : utf8_state) (bs : list N) : list N :=
  match bs with
  | [] => if bytes_needed st =? 0 then [] else [0xFFFD]
  | b :: rest =>
      if bytes_needed st =? 0 then
        let '(out, st') := utf8_lead b in out ++ utf8_decode st' rest
      else if (lower_boundary st <=? b) && (b <=? upper_boundary st) then
        let cp := N.lor (N.shiftl (code_point st) 6) (N.land b 0x3F) in
        if bytes_seen st + 1 =? bytes_needed st
        then cp :: utf8_decode utf8_initial rest
        else utf8_decode (mk_utf8_state cp (bytes_seen st + 1) (bytes_needed st) 0x80 0xBF) rest
      else
        let '(out, st') := utf8_lead b in 0xFFFD :: out ++ utf8_decode st' rest
  end.

(** A decoder that does not ignore the byte order mark drops a leading
    U+FEFF. *)
Definition strip_BOM (cps : list N) : list N :=
  match cps with
  | cp :: rest => if cp =? 0xFEFF then rest else cps
  | [] => []
  end.

Definition code_units (cp : N) : list N :=
  if cp <? 0x10000 then [cp]
  else [N.shiftr (cp - 0x10000) 10 + 0xD800; N.land (cp - 0x10000) 0x3FF + 0xDC00].

(** [textDecoder.decode(bytes)] for [new TextDecoder()]: UTF-8, not fatal,
    [ignoreBOM] false. *)
Definition TextDecoder_decode (bytes : Uint8Array) : jsstring :=
  flat_map code_units (strip_BOM (utf8_decode utf8_initial (map Byte.to_N bytes))).

(** *** Platform base64 *)

(** The character of a six-bit value in the base64 alphabet. *)
Definition base64_char (v : N) : N :=
  if v <? 26 then 65 + v
  else if v <? 52 then 97 + (v - 26)
  else if v <? 62 then 48 + (v - 52)
  else if v =? 62 then 43
  else 47.

Definition base64_value (c : N) : option N :=
  if (65 <=? c) && (c <=? 90) then Some (c - 65)
  else if (97 <=? c) && (c <=? 122) then Some (c - 97 + 26)
  else if (48 <=? c) && (c <=? 57) then Some (c - 48 + 52)
  else if c =? 43 then Some 62
  else if c =? 47 then Some 63
  else None.

(** The six-bit groups of a byte sequence, the last one filled with zero
    bits. *)
Fixpoint sextets (bs : list N) : list N :=
  match bs with
  | [] => []
  | [a] => [a / 4; (a mod 4) * 16]
  | [a; b] => [a / 4; (a mod 4) * 16 + b / 16; (b mod 16) * 4]
  | a :: b :: c :: rest =>
      [a / 4; (a mod 4) * 16 + b / 16; (b mod 16) * 4 + c / 64; c mod 64] ++ sextets rest
  end.

Definition padding (n : nat) : list N :=
  match (n mod 3)%nat with
  | 1%nat => [61; 61]
  | 2%nat => [61]
  | _ => []
  end.

(** [btoa(binary)]: fails on a code unit above 0xFF. *)
Definition btoa (binary : jsstring) : Settled jsstring :=
  if forallb (fun c => c <=? 0xFF) binary
  then Resolved (map base64_char (sextets binary) ++ padding (length binary))
  else Rejected InvalidCharacterError.

Definition is_ascii_whitespace (c : N) : bool :=
  (c =? 9) || (c =? 10) || (c =? 12) || (c =? 13) || (c =? 32).

Definition strip_padding (data : jsstring) : jsstring :=
  if (length data mod 4 =? 0)%nat then
    match rev data with
    | c1 :: r1 =>
        if c1 =? 61 then
          match r1 with
          | c2 :: r2 => if c2 =? 61 then rev r2 else rev r1
          | [] => rev r1
          end
        else data
    | [] => data
    end
  else data.

(** The bytes of a run of six-bit values; the bits left over at the end
    (four after two values, two after three) are dropped. *)
Fixpoint octets (vs : list N) : list N :=
  match vs with
  | a :: b :: c :: d :: rest =>
      [a * 4 + b / 16; (b mod 16) * 16 + c / 4; (c mod 4) * 64 + d] ++ octets rest
  | [a; b; c] => [a * 4 + b / 16; (b mod 16) * 16 + c / 4]
  | [a; b] => [a * 4 + b / 16]
  | _ => []
  end.

(** [atob(data)], the forgiving base64 decoder. *)
Definition atob (data : jsstring) : Settled jsstring :=
  let data := strip_padding (filter (fun c => negb (is_ascii_whitespace c)) data) in
  if (length data mod 4 =? 1)%nat then Rejected InvalidCharacterError
  else
    match mapM base64_value data with
    | Some vs => Resolved (octets vs)
    | None => Rejected InvalidCharacterError
    end.

(** [payload.split(':')] for a one-unit separator: never empty. *)
Fixpoint split (sep : N) (s : jsstring) : list jsstring :=
  match s with
  | [] => [[]]
  | c :: rest =>
      if c =? sep then [] :: split sep rest
      else
        match split sep rest with
        | piece :: pieces => (c :: piece) :: pieces
        | [] => [[c]]
        end
  end.

(** *** The helpers of [VaultApp.tsx] *)

Definition bytesToBase64 (bytes : Uint8Array) : Settled jsstring :=
  let binary := fold_left (fun binary byte => binary ++ [Byte.to_N byte]) bytes [] in
  btoa binary.

Definition base64ToBytes (value : jsstring) : Settled Uint8Array :=
  and_then (atob value) (fun binary => Resolved (map uint8 binary)).

(** The literals ['dv1'] and [':']. *)
Definition dv1 : jsstring := [100; 118; 49].
Definition colon : N := 58.

(** [!value] for a destructured piece: [undefined] and [''] are falsy. *)
Definition falsy (value : option jsstring) : bool :=
  match value with
  | None | Some [] => true
  | Some (_ :: _) => false
  end.

Section WebPlatform.

(** [String.prototype.toLowerCase] and the Web Crypto primitives: SHA-256,
    and AES-GCM under a raw key with a given IV ([decrypt] fails when the
    tag does not verify). *)
Variable toLowerCase : jsstring -> jsstring.
Variable sha256 : Uint8Array -> Uint8Array.
Variable aes_gcm_encrypt : Uint8Array -> Uint8Array -> Uint8Array -> Uint8Array.
Variable aes_gcm_decrypt : Uint8Array -> Uint8Array -> Uint8Array -> option Uint8Array.

(** The key is the digest itself, imported raw. *)
Definition deriveKey (address : jsstring) : Uint8Array :=
  let normalized := toLowerCase address in
  sha256 (TextEncoder_encode normalized).

(** [iv] is what [crypto.getRandomValues(new Uint8Array(12))] returned. *)
Definition encryptSecret (iv : Uint8Array) (address plaintext : jsstring) : Settled jsstring :=
  let key := deriveKey address in
  let encrypted := aes_gcm_encrypt key iv (TextEncoder_encode plaintext) in
  and_then (bytesToBase64 encrypted) (fun payload =>
  and_then (bytesToBase64 iv) (fun ivValue =>
  Resolved (dv1 ++ [colon] ++ ivValue ++ [colon] ++ payload))).

Definition decryptSecret (address payload : jsstring) : Settled jsstring :=
  let parts := split colon payload in
  let prefix := parts !! 0%nat in
  let ivValue := parts !! 1%nat in
  let dataValue := parts !! 2%nat in
  if negb (bool_decide (prefix = Some dv1)) || falsy ivValue || falsy dataValue
  then Rejected UnsupportedCiphertextFormat
  else
    let key := deriveKey address in
    and_then (base64ToBytes (default [] ivValue)) (fun iv =>
    and_then (base64ToBytes (default [] dataValue)) (fun data =>
    match aes_gcm_decrypt key iv data with
    | Some decrypted => Resolved (TextDecoder_decode decrypted)
    | None => Rejected OperationError
    end)).

End WebPlatform.

(** Stand-ins for SHA-256 and AES-GCM with which closed instances can be
    evaluated: the digest is the first 32 bytes of the zero-padded input, and
    sealing appends a 16-byte tag cut from key and IV. *)
Definition demo_toLowerCase (s : jsstring) : jsstring :=
  map (fun c => if (65 <=? c) && (c <=? 90) then c + 32 else c) s.

Definition demo_sha256 (data : Uint8Array) : Uint8Array :=
  take 32 (data ++ repeat x00 32).

Definition demo_tag (key iv : Uint8Array) : Uint8Array :=
  take 16 (key ++ iv ++ repeat x00 16).

Definition demo_encrypt (key iv data : Uint8Array) : Uint8Array :=
  data ++ demo_tag key iv.

Definition demo_decrypt (key iv data : Uint8Array) : option Uint8Array :=
  let n := (length data - 16)%nat in
  if bool_decide (drop n data = demo_tag key iv) then Some (take n data) else None.

End Cipher.


(** ** Part III: properties of the vault ledger *)

Module LedgerFacts.
Import Ledger.

(** A sample access layer for closed instances: the contract sits at address
    1000, and an input is accepted, as the handle itself, exactly when its
    proof is not empty. *)
Definition sample_this : N := 1000.

Definition sample_fromExternal (msg_sender h : N) (inputProof : string) : option N :=
  match inputProof with
  | EmptyString => None
  | String _ _ => Some h
  end.

Section Facts.

Variable this : N.
Variable fromExternal : N -> N -> string -> option N.

Local Abbreviation createVault := (Ledger.createVault this fromExternal).
Local Abbreviation rotateVaultKey := (Ledger.rotateVaultKey this fromExternal).
Local Abbreviation dispatch := (Ledger.dispatch this fromExternal).
Local Abbreviation outcome := (Ledger.outcome this fromExternal).
Local Abbreviation next := (Ledger.next this fromExternal).
Local Abbreviation succeeds := (Ledger.succeeds this fromExternal).
Local Abbreviation run := (Ledger.run this fromExternal).
Local Abbreviation successful := (Ledger.successful this fromExternal).
Local Abbreviation reachable := (Ledger.reachable this fromExternal).

(** *** Each operation in closed form *)

Ltac unfold_M :=
  unfold mbind, M_bind, mret, M_ret, sload, set_encryptedKey, set_initialized,
    push_ciphertext, modify_vault, emit, revert, FHE_fromExternal, FHE_allowThis,
    FHE_allow, checked_sub; simpl.

Lemma createVault_run (s k : N) (p : string) (w : World) :
  createVault s k p w =
  if initialized (vaults w !!! s) then Revert VaultAlreadyExists
  else match fromExternal s k p with
       | None => Revert InvalidInputProof
       | Some vk =>
           Ok (tt, mkWorld
                 (<[s := mkVault vk true (ciphertexts (vaults w !!! s))]> (vaults w))
                 ({[ (vk, s) ]} ∪ ({[ (vk, this) ]} ∪ grants w))
                 (logs w ++ [VaultCreated s]))
       end.
Proof.
  unfold Ledger.createVault. unfold_M.
  destruct (initialized (vaults w !!! s)); [reflexivity|].
  unfold_M. destruct (fromExternal s k p) as [vk|]; [|reflexivity].
  unfold_M. rewrite lookup_total_insert_eq, insert_insert_eq. reflexivity.
Qed.

Lemma rotateVaultKey_run (s k : N) (p : string) (w : World) :
  rotateVaultKey s k p w =
  if initialized (vaults w !!! s) then
    match fromExternal s k p with
    | None => Revert InvalidInputProof
    | Some vk =>
        Ok (tt, mkWorld
              (<[s := mkVault vk true (ciphertexts (vaults w !!! s))]> (vaults w))
              ({[ (vk, s) ]} ∪ ({[ (vk, this) ]} ∪ grants w))
              (logs w ++ [VaultKeyRotated s]))
    end
  else Revert VaultMissing.
Proof.
  unfold Ledger.rotateVaultKey. unfold_M.
  destruct (initialized (vaults w !!! s)) eqn:Hi; [|reflexivity].
  unfold_M. destruct (fromExternal s k p) as [vk|]; [|reflexivity].
  unfold_M. rewrite Hi. reflexivity.
Qed.

Lemma storeSecret_run (s : N) (c : string) (w : World) :
  storeSecret s c w =
  if initialized (vaults w !!! s) then
    Ok (tt, mkWorld
          (<[s := mkVault (encryptedKey (vaults w !!! s)) true
                    (ciphertexts (vaults w !!! s) ++ [c])]> (vaults w))
          (grants w)
          (logs w ++ [SecretStored s (N.of_nat (length (ciphertexts (vaults w !!! s))))]))
  else Revert VaultMissing.
Proof.
  unfold storeSecret. unfold_M.
  destruct (initialized (vaults w !!! s)) eqn:Hi; [|reflexivity].
  unfold_M. rewrite lookup_total_insert_eq. simpl.
  rewrite length_app, Nat.add_1_r, Nat2N.inj_succ. simpl.
  destruct (N.succ _ <? 1) eqn:Hlt.
  - apply N.ltb_lt in Hlt. lia.
  - unfold_M. rewrite Hi, N.sub_1_r, N.pred_succ. reflexivity.
Qed.

Lemma view_hasVault (o : N) (w : World) :
  view (hasVault o) w = Ok (initialized (vaults w !!! o)).
Proof. reflexivity. Qed.

Lemma view_getVaultKey (o : N) (w : World) :
  view (getVaultKey o) w = Ok (encryptedKey (vaults w !!! o)).
Proof. reflexivity. Qed.

Lemma view_getSecretCount (o : N) (w : World) :
  view (getSecretCount o) w = Ok (N.of_nat (length (ciphertexts (vaults w !!! o)))).
Proof. reflexivity. Qed.

Lemma getSecret_run (o i : N) (w : World) :
  getSecret o i w =
  match ciphertexts (vaults w !!! o) !! N.to_nat i with
  | Some c => Ok (c, w)
  | None => Revert SecretIndexOutOfBounds
  end.
Proof.
  unfold getSecret. unfold_M.
  destruct (N.leb_spec (N.of_nat (length (ciphertexts (vaults w !!! o)))) i) as [Hle|Hlt].
  - rewrite (proj2 (lookup_ge_None _ _)) by lia. reflexivity.
  - destruct (lookup_lt_is_Some_2 (ciphertexts (vaults w !!! o)) (N.to_nat i)) as [c Hc];
      [lia|]. rewrite Hc. reflexivity.
Qed.

Lemma view_getSecret (o i : N) (w : World) :
  view (getSecret o i) w =
  match ciphertexts (vaults w !!! o) !! N.to_nat i with
  | Some c => Ok c
  | None => Revert SecretIndexOutOfBounds
  end.
Proof.
  unfold view. rewrite getSecret_run.
  destruct (ciphertexts (vaults w !!! o) !! N.to_nat i); reflexivity.
Qed.

(** *** One transaction *)

Ltac run_tx tx :=
  let s := fresh "s" in
  destruct tx as [s [?k ?p|?k ?p|?c]];
  unfold Ledger.succeeds, Ledger.outcome, Ledger.next, Ledger.dispatch; simpl;
  rewrite ?createVault_run, ?rotateVaultKey_run, ?storeSecret_run.

(** A transaction does not touch the record of anyone but its sender. *)
Lemma next_other (w : World) (tx : Tx) (d : N) :
  d ≠ sender tx → vaults (next w tx) !!! d = vaults w !!! d.
Proof.
  run_tx tx; intros Hd;
    destruct (initialized (vaults w !!! s)); try reflexivity;
    try (destruct (fromExternal s k p); try reflexivity);
    simpl; apply lookup_total_insert_ne; congruence.
Qed.

(** What a transaction does to its sender's own record. *)
Lemma next_own (w : World) (tx : Tx) :
  let v := vaults w !!! sender tx in
  vaults (next w tx) !!! sender tx =
  if succeeds w tx then
    match call tx with
    | CreateVault k p | RotateVaultKey k p =>
        mkVault (default 0 (fromExternal (sender tx) k p)) true (ciphertexts v)
    | StoreSecret c => mkVault (encryptedKey v) true (ciphertexts v ++ [c])
    end
  else v.
Proof.
  run_tx tx; destruct (initialized (vaults w !!! s)); try reflexivity;
    try (destruct (fromExternal s k p); try reflexivity);
    simpl; apply lookup_total_insert_eq.
Qed.

Lemma succeeds_spec (w : World) (tx : Tx) :
  succeeds w tx =
  match call tx with
  | CreateVault k p =>
      negb (initialized (vaults w !!! sender tx))
      && bool_decide (is_Some (fromExternal (sender tx) k p))
  | RotateVaultKey k p =>
      initialized (vaults w !!! sender tx)
      && bool_decide (is_Some (fromExternal (sender tx) k p))
  | StoreSecret _ => initialized (vaults w !!! sender tx)
  end.
Proof.
  run_tx tx; destruct (initialized (vaults w !!! s)); try reflexivity;
    destruct (fromExternal s k p); reflexivity.
Qed.

Lemma next_revert (w : World) (tx : Tx) : succeeds w tx = false → next w tx = w.
Proof.
  unfold Ledger.succeeds, Ledger.outcome, Ledger.next.
  destruct (dispatch tx w) as [[[] w']|e]; [discriminate|reflexivity].
Qed.

(** *** Reachable worlds *)

Lemma reachable_run (w : World) (txs : list Tx) : reachable w → reachable (run w txs).
Proof.
  revert w. induction txs as [|tx txs IH]; intros w Hw; simpl; [assumption|].
  apply IH. now constructor.
Qed.

Lemma run_app (w : World) (txs1 txs2 : list Tx) :
  run w (txs1 ++ txs2) = run (run w txs1) txs2.
Proof. revert w. induction txs1 as [|tx txs1 IH]; intros w; simpl; [reflexivity|apply IH]. Qed.

Lemma successful_app (w : World) (txs1 txs2 : list Tx) :
  successful w (txs1 ++ txs2) = successful w txs1 ++ successful (run w txs1) txs2.
Proof.
  revert w. induction txs1 as [|tx txs1 IH]; intros w; simpl; [reflexivity|].
  rewrite IH. apply app_assoc.
Qed.

Lemma genesis_vault (g : gset (N * N)) (o : N) : vaults (genesis g) !!! o = zero_vault.
Proof. unfold genesis. simpl. rewrite lookup_total_empty. reflexivity. Qed.

(** The flag only ever goes up. *)
Lemma initialized_next (w : World) (tx : Tx) (o : N) :
  initialized (vaults w !!! o) = true → initialized (vaults (next w tx) !!! o) = true.
Proof.
  intros Hi. destruct (decide (o = sender tx)) as [->|Hne].
  - rewrite next_own. simpl. destruct (succeeds w tx); [|assumption].
    destruct (call tx); reflexivity.
  - now rewrite next_other.
Qed.

(** An uninitialized record has no ciphertext: [storeSecret] is the only
    writer of the array and it is guarded by the flag. *)
Lemma uninitialized_empty (w : World) (o : N) :
  reachable w → initialized (vaults w !!! o) = false → ciphertexts (vaults w !!! o) = [].
Proof.
  induction 1 as [g|w tx Hw IH]; [reflexivity|].
  destruct (decide (o = sender tx)) as [->|Hne].
  - rewrite next_own. simpl. destruct (succeeds w tx); [|assumption].
    destruct (call tx); discriminate.
  - now rewrite next_other.
Qed.

Lemma submitted_app (o : N) (txs1 txs2 : list Tx) :
  submitted o (txs1 ++ txs2) = submitted o txs1 ++ submitted o txs2.
Proof. apply flat_map_app. Qed.

(** The owner's array is what it was, followed by what the owner stored
    with success since, in order. *)
Lemma ciphertexts_run (w : World) (txs : list Tx) (o : N) :
  ciphertexts (vaults (run w txs) !!! o) =
  ciphertexts (vaults w !!! o) ++ submitted o (successful w txs).
Proof.
  revert w. induction txs as [|tx txs IH]; intros w; simpl.
  - now rewrite app_nil_r.
  - rewrite IH, submitted_app, app_assoc. f_equal.
    destruct (decide (o = sender tx)) as [->|Hne].
    + rewrite next_own. simpl. destruct (succeeds w tx); simpl.
      * unfold submitted. simpl.
        destruct (call tx); simpl; rewrite ?app_nil_r; try reflexivity.
        now rewrite decide_True.
      * now rewrite app_nil_r.
    + rewrite next_other by assumption.
      assert (submitted o (if succeeds w tx then [tx] else []) = []) as ->;
        [|now rewrite app_nil_r].
      destruct (succeeds w tx); [|reflexivity]. unfold submitted. simpl.
      destruct (call tx); simpl; try reflexivity.
      rewrite decide_False by congruence. reflexivity.
Qed.

(** The flag is up exactly when it was up before or the owner has created a
    vault with success since. *)
Lemma initialized_run (w : World) (txs : list Tx) (o : N) :
  initialized (vaults (run w txs) !!! o) =
  initialized (vaults w !!! o) || existsb (is_createVault_by o) (successful w txs).
Proof.
  revert w. induction txs as [|tx txs IH]; intros w; simpl.
  - now rewrite orb_false_r.
  - rewrite IH, existsb_app, orb_assoc. f_equal.
    destruct (decide (o = sender tx)) as [->|Hne].
    + rewrite next_own. simpl. rewrite succeeds_spec.
      destruct tx as [s [k p|k p|c]]; unfold is_createVault_by; simpl;
        destruct (initialized (vaults w !!! s)) eqn:Hi; simpl; rewrite ?Hi;
        try reflexivity;
        destruct (fromExternal s k p); simpl; rewrite ?Hi; try reflexivity.
      now rewrite bool_decide_eq_true_2.
    + rewrite next_other by assumption.
      assert (existsb (is_createVault_by o) (if succeeds w tx then [tx] else []) = false)
        as ->; [|now rewrite orb_false_r].
      destruct (succeeds w tx); [|reflexivity]. simpl. unfold is_createVault_by.
      destruct (call tx); simpl; try reflexivity.
      rewrite bool_decide_eq_false_2 by congruence. reflexivity.
Qed.

(** The grants a transaction adds. *)
Lemma grants_next (w : World) (tx : Tx) :
  grants (next w tx) =
  if succeeds w tx then
    match call tx with
    | CreateVault k p | RotateVaultKey k p =>
        let vk := default 0 (fromExternal (sender tx) k p) in
        {[ (vk, sender tx) ]} ∪ ({[ (vk, this) ]} ∪ grants w)
    | StoreSecret _ => grants w
    end
  else grants w.
Proof.
  run_tx tx; destruct (initialized (vaults w !!! s)); try reflexivity;
    destruct (fromExternal s k p); reflexivity.
Qed.

(** *** The claims *)

(** C1 (as amended).  For every caller, [createVault] succeeds exactly when
    the caller's vault is not yet initialized and the access layer accepts
    the input with its proof; on success the caller's record holds the
    validated handle and [initialized = true], its ciphertexts as before.
    When the vault is already initialized the call fails with
    [VaultAlreadyExists] and the world is unchanged, so [getVaultKey] still
    returns the handle stored before; a rejected input fails the call and
    changes nothing either. *)
Theorem createVault_spec (w : World) (s k : N) (p : string) :
  let tx := mkTx s (CreateVault k p) in
  (succeeds w tx = true ↔
     view (hasVault s) w = Ok false ∧ is_Some (fromExternal s k p))
  ∧ (∀ vk, view (hasVault s) w = Ok false → fromExternal s k p = Some vk →
       outcome w tx = None
       ∧ vaults (next w tx) !!! s = mkVault vk true (ciphertexts (vaults w !!! s))
       ∧ view (getVaultKey s) (next w tx) = Ok vk
       ∧ view (hasVault s) (next w tx) = Ok true)
  ∧ (view (hasVault s) w = Ok true →
       outcome w tx = Some VaultAlreadyExists
       ∧ next w tx = w
       ∧ view (getVaultKey s) (next w tx) = view (getVaultKey s) w)
  ∧ (view (hasVault s) w = Ok false → fromExternal s k p = None →
       outcome w tx = Some InvalidInputProof ∧ next w tx = w).
Proof.
  simpl. rewrite !view_hasVault.
  unfold Ledger.succeeds, Ledger.outcome, Ledger.next, Ledger.dispatch; simpl.
  rewrite createVault_run.
  destruct (initialized (vaults w !!! s)) eqn:Hi;
    destruct (fromExternal s k p) as [vk|] eqn:Hv; simpl;
    repeat split; try intros vk'; intros; simplify_eq;
    try reflexivity; try discriminate; eauto;
    try (apply lookup_total_insert_eq);
    try (rewrite view_getVaultKey; simpl; now rewrite lookup_total_insert_eq);
    try (match goal with H : _ ∧ _ |- _ => destruct H as [? [? ?]] end; discriminate).
  now rewrite lookup_total_insert_eq.
Qed.

(** C3.  For a caller whose vault is not initialized, [rotateVaultKey] and
    [storeSecret] both fail with [VaultMissing] and leave the world as it
    was; for an initialized caller neither fails with [VaultMissing]. *)
Theorem vault_missing_spec (w : World) (s k : N) (p c : string) :
  let rot := mkTx s (RotateVaultKey k p) in
  let sto := mkTx s (StoreSecret c) in
  (view (hasVault s) w = Ok false →
     outcome w rot = Some VaultMissing ∧ next w rot = w
     ∧ outcome w sto = Some VaultMissing ∧ next w sto = w)
  ∧ (view (hasVault s) w = Ok true →
     outcome w rot ≠ Some VaultMissing ∧ outcome w sto ≠ Some VaultMissing).
Proof.
  simpl. rewrite !view_hasVault.
  unfold Ledger.outcome, Ledger.next, Ledger.dispatch; simpl.
  rewrite rotateVaultKey_run, storeSecret_run.
  destruct (initialized (vaults w !!! s)); split; intros H; try discriminate.
  - destruct (fromExternal s k p); split; discriminate.
  - repeat split; reflexivity.
Qed.

(** C4.  [getSecret(O, i)] fails with [SecretIndexOutOfBounds] exactly when
    [i >= getSecretCount(O)]; otherwise it returns the ciphertext stored at
    index [i] and hands back the world it was given.  In a reachable world
    an uninitialized owner has count 0, so index 0 is out of bounds. *)
Theorem getSecret_spec (w : World) (O i : N) :
  let cs := ciphertexts (vaults w !!! O) in
  view (getSecretCount O) w = Ok (N.of_nat (length cs))
  ∧ (view (getSecret O i) w = Revert SecretIndexOutOfBounds ↔ N.of_nat (length cs) ≤ i)
  ∧ (i < N.of_nat (length cs) →
       ∃ c, cs !! N.to_nat i = Some c ∧ getSecret O i w = Ok (c, w))
  ∧ (reachable w → view (hasVault O) w = Ok false →
       view (getSecretCount O) w = Ok 0
       ∧ view (getSecret O 0) w = Revert SecretIndexOutOfBounds).
Proof.
  simpl. rewrite view_getSecretCount, view_getSecret, getSecret_run, view_hasVault.
  split; [reflexivity|]. split; [|split].
  - destruct (ciphertexts (vaults w !!! O) !! N.to_nat i) as [c|] eqn:Hc.
    + apply lookup_lt_Some in Hc. split; [discriminate|lia].
    + apply lookup_ge_None in Hc. split; [lia|reflexivity].
  - intros Hlt.
    destruct (lookup_lt_is_Some_2 (ciphertexts (vaults w !!! O)) (N.to_nat i)) as [c Hc];
      [lia|]. exists c. now rewrite Hc.
  - intros Hw Hi. rewrite view_getSecret.
    rewrite (uninitialized_empty w O Hw) by congruence. split; reflexivity.
Qed.

(** C7.  A mutating call sent by [C] leaves the record of every other
    identity [D] as it was, whether the call succeeds or reverts. *)
Theorem mutators_touch_only_caller (w : World) (tx : Tx) (D : N) :
  D ≠ sender tx →
  encryptedKey (vaults (next w tx) !!! D) = encryptedKey (vaults w !!! D)
  ∧ initialized (vaults (next w tx) !!! D) = initialized (vaults w !!! D)
  ∧ ciphertexts (vaults (next w tx) !!! D) = ciphertexts (vaults w !!! D).
Proof. intros HD. now rewrite next_other. Qed.

(** C6.  A [rotateVaultKey] that succeeds puts the freshly validated handle
    in [encryptedKey] and leaves the caller's ciphertexts and [initialized]
    flag exactly as they were. *)
Theorem rotateVaultKey_frame (w w' : World) (s k : N) (p : string) :
  rotateVaultKey s k p w = Ok (tt, w') →
  fromExternal s k p = Some (encryptedKey (vaults w' !!! s))
  ∧ ciphertexts (vaults w' !!! s) = ciphertexts (vaults w !!! s)
  ∧ initialized (vaults w' !!! s) = initialized (vaults w !!! s)
  ∧ view (hasVault s) w = Ok true.
Proof.
  rewrite rotateVaultKey_run, view_hasVault.
  destruct (initialized (vaults w !!! s)); [|discriminate].
  destruct (fromExternal s k p) as [vk|]; [|discriminate].
  intros [= <-]. simpl. rewrite lookup_total_insert_eq. repeat split.
Qed.

(** C10.  In every reachable world an owner whose vault is not initialized
    has no ciphertext: [getSecretCount] is 0 and [getSecret] fails at every
    index. *)
Theorem uninitialized_vault_is_empty (w : World) (O : N) :
  reachable w → view (hasVault O) w = Ok false →
  ciphertexts (vaults w !!! O) = []
  ∧ view (getSecretCount O) w = Ok 0
  ∧ ∀ i, view (getSecret O i) w = Revert SecretIndexOutOfBounds.
Proof.
  rewrite view_hasVault. intros Hw [= Hi].
  pose proof (uninitialized_empty w O Hw Hi) as He.
  rewrite view_getSecretCount, He. repeat split.
  intros i. rewrite view_getSecret, He. reflexivity.
Qed.

(** C2.  After any history, [getSecretCount(O)] is the number N of
    [storeSecret] calls of [O] that succeeded, and [getSecret(O, i)] is the
    i-th ciphertext so submitted, in submission order.  One more successful
    call appends at index N, the length before it, and its [SecretStored]
    event carries N; whatever runs later, the entries below N read as
    before. *)
Theorem storeSecret_ledger (g : gset (N * N)) (txs : list Tx) (O : N) (c : string) :
  let w := run (genesis g) txs in
  let cs := submitted O (successful (genesis g) txs) in
  let tx := mkTx O (StoreSecret c) in
  view (getSecretCount O) w = Ok (N.of_nat (length cs))
  ∧ (∀ i x, cs !! N.to_nat i = Some x → view (getSecret O i) w = Ok x)
  ∧ (succeeds w tx = true →
       ciphertexts (vaults (next w tx) !!! O) = cs ++ [c]
       ∧ logs (next w tx) = logs w ++ [SecretStored O (N.of_nat (length cs))]
       ∧ view (getSecretCount O) (next w tx) = Ok (N.of_nat (length cs) + 1)
       ∧ view (getSecret O (N.of_nat (length cs))) (next w tx) = Ok c)
  ∧ (∀ later i, i < N.of_nat (length cs) →
       view (getSecret O i) (run w later) = view (getSecret O i) w).
Proof.
  simpl.
  pose proof (ciphertexts_run (genesis g) txs O) as Hcs.
  rewrite genesis_vault in Hcs. simpl in Hcs.
  rewrite view_getSecretCount, Hcs. split; [reflexivity|]. split; [|split].
  - intros i x Hx. now rewrite view_getSecret, Hcs, Hx.
  - intros Hok.
    pose proof (next_own (run (genesis g) txs) (mkTx O (StoreSecret c))) as Hown.
    simpl in Hown. rewrite Hok, Hcs in Hown.
    rewrite view_getSecretCount, view_getSecret, Hown. simpl.
    split; [reflexivity|]. split; [|split].
    + rewrite succeeds_spec in Hok. simpl in Hok.
      unfold Ledger.next, Ledger.dispatch. simpl.
      rewrite storeSecret_run, Hok, Hcs. reflexivity.
    + rewrite length_app. simpl. f_equal. lia.
    + rewrite Nat2N.id, lookup_app_r, Nat.sub_diag by lia. reflexivity.
  - intros later i Hi. rewrite !view_getSecret, ciphertexts_run, Hcs.
    rewrite lookup_app_l by lia. reflexivity.
Qed.

(** C5.  After any history [hasVault(O)] is true exactly when the history
    holds a [createVault] of [O] that succeeded, so it is false before the
    first one; and once it is true no transaction of anyone, whether
    creation, rotation or storage, makes it false again. *)
Theorem hasVault_monotone (g : gset (N * N)) (txs : list Tx) (O : N) :
  view (hasVault O) (run (genesis g) txs)
    = Ok (existsb (is_createVault_by O) (successful (genesis g) txs))
  ∧ (∀ w tx, view (hasVault O) w = Ok true → view (hasVault O) (next w tx) = Ok true)
  ∧ (∀ w later, view (hasVault O) w = Ok true → view (hasVault O) (run w later) = Ok true).
Proof.
  rewrite view_hasVault, initialized_run, genesis_vault. split; [reflexivity|]. split.
  - intros w tx. rewrite !view_hasVault. intros [= Hi].
    now rewrite initialized_next.
  - intros w later. rewrite !view_hasVault. intros [= Hi].
    now rewrite initialized_run, Hi.
Qed.

(** C8.  After a [createVault] or [rotateVaultKey] that succeeds, the handle
    now stored in the caller's vault is granted to the contract itself and
    to the caller.  No transaction adds a grant for anyone else: every grant
    that is new after a transaction is on the handle stored for its sender
    and goes to the contract or to that sender. *)
Theorem access_grants (w : World) (tx : Tx) :
  let h := encryptedKey (vaults (next w tx) !!! sender tx) in
  (succeeds w tx = true → (∀ c, call tx ≠ StoreSecret c) →
     (h, this) ∈ grants (next w tx) ∧ (h, sender tx) ∈ grants (next w tx))
  ∧ (∀ h' who, (h', who) ∈ grants (next w tx) →
       (h', who) ∈ grants w ∨ (h' = h ∧ (who = this ∨ who = sender tx))).
Proof.
  simpl. rewrite grants_next, next_own. simpl.
  destruct (succeeds w tx); [|split; [discriminate|now left]].
  destruct (call tx) as [k p|k p|c]; simpl.
  - split; [intros _ _; set_solver|]. intros h' who Hin.
    rewrite !elem_of_union, !elem_of_singleton in Hin.
    destruct Hin as [[= -> ->]|[[= -> ->]|Hin]]; auto.
  - split; [intros _ _; set_solver|]. intros h' who Hin.
    rewrite !elem_of_union, !elem_of_singleton in Hin.
    destruct Hin as [[= -> ->]|[[= -> ->]|Hin]]; auto.
  - split; [intros _ Hc; now destruct (Hc c)|now left].
Qed.

End Facts.

(** *** Closed instances on the sample access layer *)

Local Abbreviation sample_next := (Ledger.next sample_this sample_fromExternal).
Local Abbreviation sample_run := (Ledger.run sample_this sample_fromExternal).
Local Abbreviation sample_outcome := (Ledger.outcome sample_this sample_fromExternal).
Local Abbreviation sample_succeeds := (Ledger.succeeds sample_this sample_fromExternal).

(** Owner 7 creates a vault with key handle 41 and stores two secrets; owner
    8 has tried to store without a vault. *)
Definition sample_history : list Tx :=
  [ mkTx 7 (CreateVault 41 "proof");
    mkTx 8 (StoreSecret "x");
    mkTx 7 (StoreSecret "dv1:iv1:payload1");
    mkTx 7 (StoreSecret "dv1:iv2:payload2") ].

Definition sample_world : World := sample_run (genesis ∅) sample_history.

(** C1, the claim as first stated fails: caller 7 has no vault in the
    genesis world, yet [createVault] with an input the access layer rejects
    (here an empty proof) does not succeed, and it fails with the access
    layer's error, not with [VaultAlreadyExists]. *)
Lemma createVault_fresh_rejected :
  view (hasVault 7) (genesis ∅) = Ok false
  ∧ sample_succeeds (genesis ∅) (mkTx 7 (CreateVault 42 "")) = false
  ∧ sample_outcome (genesis ∅) (mkTx 7 (CreateVault 42 "")) = Some InvalidInputProof.
Proof. repeat split. Qed.

(** The second scenario of the specification: the owner's second
    [createVault], with another key, fails and the first handle stays. *)
Lemma createVault_spec_witness :
  let tx := mkTx 7 (CreateVault 42 "proof") in
  sample_outcome sample_world tx = Some VaultAlreadyExists
  ∧ sample_next sample_world tx = sample_world
  ∧ view (getVaultKey 7) (sample_next sample_world tx) = view (getVaultKey 7) sample_world
  ∧ view (getVaultKey 7) sample_world = Ok 41.
Proof.
  pose proof (createVault_spec sample_this sample_fromExternal sample_world 7 42 "proof")
    as (_ & _ & H & _).
  destruct (H eq_refl) as (H1 & H2 & H3). repeat split; assumption.
Defined.

Lemma sample_world_reachable : Ledger.reachable sample_this sample_fromExternal sample_world.
Proof. apply reachable_run. constructor. Qed.

(** The first scenario of the specification, continued by one more store. *)
Lemma storeSecret_ledger_witness :
  view (getSecretCount 7) sample_world = Ok 2
  ∧ view (getSecret 7 0) sample_world = Ok "dv1:iv1:payload1"%string
  ∧ view (getSecret 7 1) sample_world = Ok "dv1:iv2:payload2"%string
  ∧ logs (sample_next sample_world (mkTx 7 (StoreSecret "c3")))
      = logs sample_world ++ [SecretStored 7 2].
Proof.
  pose proof (storeSecret_ledger sample_this sample_fromExternal ∅ sample_history 7 "c3")
    as (H1 & H2 & H3 & _).
  destruct (H3 eq_refl) as (_ & H4 & _).
  split; [exact H1|]. split; [exact (H2 0 _ eq_refl)|].
  split; [exact (H2 1 _ eq_refl)|exact H4].
Defined.

(** The third scenario: owner 8, without a vault, cannot store. *)
Lemma vault_missing_spec_witness :
  sample_outcome sample_world (mkTx 8 (StoreSecret "x")) = Some VaultMissing
  ∧ sample_next sample_world (mkTx 8 (StoreSecret "x")) = sample_world
  ∧ sample_outcome sample_world (mkTx 8 (RotateVaultKey 5 "proof")) = Some VaultMissing
  ∧ sample_outcome sample_world (mkTx 7 (StoreSecret "x")) ≠ Some VaultMissing.
Proof.
  pose proof (vault_missing_spec sample_this sample_fromExternal sample_world 8 5 "proof" "x")
    as [H _].
  pose proof (vault_missing_spec sample_this sample_fromExternal sample_world 7 5 "proof" "x")
    as [_ H'].
  destruct (H eq_refl) as (H1 & H2 & H3 & H4). destruct (H' eq_refl) as [_ H5].
  repeat split; assumption.
Defined.

(** The fourth scenario: reading one past the end, and reading from an
    owner without a vault. *)
Lemma getSecret_spec_witness :
  view (getSecret 7 2) sample_world = Revert SecretIndexOutOfBounds
  ∧ view (getSecret 8 0) sample_world = Revert SecretIndexOutOfBounds
  ∧ getSecret 7 1 sample_world = Ok ("dv1:iv2:payload2"%string, sample_world).
Proof.
  pose proof (getSecret_spec sample_this sample_fromExternal sample_world 7 2) as (_ & H1 & _).
  pose proof (getSecret_spec sample_this sample_fromExternal sample_world 8 0) as (_ & _ & _ & H2).
  pose proof (getSecret_spec sample_this sample_fromExternal sample_world 7 1) as (_ & _ & H3 & _).
  split; [apply H1; vm_compute; discriminate|].
  split; [apply (H2 sample_world_reachable eq_refl)|].
  destruct H3 as (c & Hc & Hget); [vm_compute; reflexivity|].
  vm_compute in Hc. injection Hc as <-. exact Hget.
Defined.

Lemma hasVault_monotone_witness :
  view (hasVault 7) sample_world = Ok true
  ∧ view (hasVault 8) sample_world = Ok false
  ∧ view (hasVault 7) (sample_next sample_world (mkTx 7 (RotateVaultKey 43 "proof"))) = Ok true.
Proof.
  pose proof (hasVault_monotone sample_this sample_fromExternal ∅ sample_history 7) as (H1 & H2 & _).
  pose proof (hasVault_monotone sample_this sample_fromExternal ∅ sample_history 8) as (H3 & _).
  split; [exact H1|]. split; [exact H3|]. apply H2. exact H1.
Defined.

Lemma rotateVaultKey_frame_witness :
  let w' := sample_next sample_world (mkTx 7 (RotateVaultKey 43 "proof")) in
  sample_fromExternal 7 43 "proof" = Some (encryptedKey (vaults w' !!! 7))
  ∧ ciphertexts (vaults w' !!! 7) = ciphertexts (vaults sample_world !!! 7)
  ∧ initialized (vaults w' !!! 7) = initialized (vaults sample_world !!! 7)
  ∧ view (hasVault 7) sample_world = Ok true.
Proof.
  apply (rotateVaultKey_frame sample_this sample_fromExternal sample_world). reflexivity.
Defined.

Lemma mutators_touch_only_caller_witness :
  let w' := sample_next sample_world (mkTx 8 (CreateVault 50 "proof")) in
  encryptedKey (vaults w' !!! 7) = encryptedKey (vaults sample_world !!! 7)
  ∧ initialized (vaults w' !!! 7) = initialized (vaults sample_world !!! 7)
  ∧ ciphertexts (vaults w' !!! 7) = ciphertexts (vaults sample_world !!! 7).
Proof.
  apply (mutators_touch_only_caller sample_this sample_fromExternal). simpl. lia.
Defined.

Lemma access_grants_witness :
  let w' := sample_next sample_world (mkTx 7 (RotateVaultKey 43 "proof")) in
  (43, sample_this) ∈ grants w' ∧ (43, 7) ∈ grants w'.
Proof.
  pose proof (access_grants sample_this sample_fromExternal sample_world
                (mkTx 7 (RotateVaultKey 43 "proof"))) as [H _].
  apply H; [reflexivity|]. intros c. simpl. discriminate.
Defined.

Lemma uninitialized_vault_is_empty_witness :
  ciphertexts (vaults sample_world !!! 8) = []
  ∧ view (getSecretCount 8) sample_world = Ok 0
  ∧ ∀ i, view (getSecret 8 i) sample_world = Revert SecretIndexOutOfBounds.
Proof.
  apply (uninitialized_vault_is_empty sample_this sample_fromExternal).
  - exact sample_world_reachable.
  - reflexivity.
Defined.

End LedgerFacts.

(** ** Part IV: properties of the cipher envelope *)

Module CipherFacts.
Import Cipher.

Ltac Zify.zify_post_hook ::= Z.to_euclidean_division_equations.

(** *** Bytes *)

Lemma uint8_to_N (b : byte) : uint8 (Byte.to_N b) = b.
Proof.
  unfold uint8. pose proof (Byte.to_N_bounded b).
  rewrite N.mod_small by lia. now rewrite Byte.of_to_N.
Qed.

Lemma to_N_uint8 (n : N) : n < 256 → Byte.to_N (uint8 n) = n.
Proof.
  intros Hn. unfold uint8. rewrite N.mod_small by assumption.
  destruct (Byte.of_N n) as [b|] eqn:Hb.
  - now apply Byte.to_of_N.
  - apply Byte.of_N_None_iff in Hb. lia.
Qed.

Lemma map_uint8_to_N (bs : list byte) : map uint8 (map Byte.to_N bs) = bs.
Proof.
  induction bs as [|b bs IH]; simpl; [reflexivity|]. now rewrite uint8_to_N, IH.
Qed.

Lemma map_to_N_uint8 (ns : list N) :
  Forall (λ n, n < 256) ns → map Byte.to_N (map uint8 ns) = ns.
Proof.
  induction 1 as [|n ns Hn _ IH]; simpl; [reflexivity|]. now rewrite to_N_uint8, IH.
Qed.

Lemma Forall_to_N_bounded (bs : list byte) : Forall (λ n, n < 256) (map Byte.to_N bs).
Proof.
  induction bs as [|b bs IH]; simpl; constructor; [|assumption].
  pose proof (Byte.to_N_bounded b). lia.
Qed.

(** *** Base64 *)

(** Lists three elements at a time. *)
Lemma list_ind3 {A} (P : list A → Prop) :
  P [] → (∀ a, P [a]) → (∀ a b, P [a; b]) →
  (∀ a b c l, P l → P (a :: b :: c :: l)) →
  ∀ l, P l.
Proof.
  intros H0 H1 H2 H3.
  fix IH 1. intros [|a [|b [|c l]]]; [exact H0|apply H1|apply H2|].
  apply H3. apply IH.
Qed.

Lemma sextets_bounded (bs : list N) :
  Forall (λ n, n < 256) bs → Forall (λ v, v < 64) (sextets bs).
Proof.
  induction bs as [|a|a b|a b c l IH] using list_ind3; intros H.
  - constructor.
  - inversion_clear H. repeat constructor; lia.
  - inversion_clear H as [|? ? Ha H']. inversion_clear H' as [|? ? Hb _].
    repeat constructor; lia.
  - inversion_clear H as [|? ? Ha H']. inversion_clear H' as [|? ? Hb H''].
    inversion_clear H'' as [|? ? Hc Hl].
    change (sextets (a :: b :: c :: l)) with
      ([a / 4; (a mod 4) * 16 + b / 16; (b mod 16) * 4 + c / 64; c mod 64] ++ sextets l).
    apply Forall_app. split; [repeat constructor; lia|auto].
Qed.

Lemma octets_sextets (bs : list N) :
  Forall (λ n, n < 256) bs → octets (sextets bs) = bs.
Proof.
  induction bs as [|a|a b|a b c l IH] using list_ind3; intros H.
  - reflexivity.
  - inversion_clear H. cbn [sextets octets]. f_equal. lia.
  - inversion_clear H as [|? ? Ha H']. inversion_clear H' as [|? ? Hb _].
    cbn [sextets octets]. f_equal; [lia|]. f_equal. lia.
  - inversion_clear H as [|? ? Ha H']. inversion_clear H' as [|? ? Hb H''].
    inversion_clear H'' as [|? ? Hc Hl].
    change (sextets (a :: b :: c :: l)) with
      ([a / 4; (a mod 4) * 16 + b / 16; (b mod 16) * 4 + c / 64; c mod 64] ++ sextets l).
    cbn [app octets]. rewrite IH by assumption.
    f_equal; [lia|]. f_equal; [lia|]. f_equal. lia.
Qed.

(** The encoded text is as long as a multiple of four, of which the
    six-bit groups alone leave a remainder of 0, 2 or 3. *)
Lemma sextets_length (bs : list N) :
  ((length (sextets bs) + length (padding (length bs))) mod 4 = 0)%nat
  ∧ (length (sextets bs) mod 4)%nat ≠ 1%nat.
Proof.
  induction bs as [|a|a b|a b c l IH] using list_ind3; try (split; [reflexivity|discriminate]).
  change (sextets (a :: b :: c :: l)) with
    ([a / 4; (a mod 4) * 16 + b / 16; (b mod 16) * 4 + c / 64; c mod 64] ++ sextets l).
  assert (padding (length (a :: b :: c :: l)) = padding (length l)) as ->.
  { unfold padding. cbn [length].
    replace (S (S (S (length l)))) with (length l + 1 * 3)%nat by lia.
    now rewrite Nat.Div0.mod_add. }
  rewrite length_app. cbn [length].
  destruct IH as [IH1 IH2]. split.
  - replace (4 + length (sextets l) + length (padding (length l)))%nat
      with (length (sextets l) + length (padding (length l)) + 1 * 4)%nat by lia.
    now rewrite Nat.Div0.mod_add.
  - replace (4 + length (sextets l))%nat with (length (sextets l) + 1 * 4)%nat by lia.
    now rewrite Nat.Div0.mod_add.
Qed.

Lemma base64_value_char (v : N) : v < 64 → base64_value (base64_char v) = Some v.
Proof.
  intros Hv. unfold base64_char.
  destruct (N.ltb_spec v 26); [|destruct (N.ltb_spec v 52); [|destruct (N.ltb_spec v 62);
    [|destruct (N.eqb_spec v 62)]]]; unfold base64_value.
  - rewrite (proj2 (N.leb_le 65 (65 + v))), (proj2 (N.leb_le (65 + v) 90)) by lia.
    simpl. f_equal. lia.
  - rewrite (proj2 (N.leb_gt (97 + (v - 26)) 90)) by lia. rewrite andb_false_r.
    rewrite (proj2 (N.leb_le 97 (97 + (v - 26)))), (proj2 (N.leb_le (97 + (v - 26)) 122)) by lia.
    simpl. f_equal. lia.
  - rewrite (proj2 (N.leb_gt 65 (48 + (v - 52)))) by lia.
    rewrite (proj2 (N.leb_gt 97 (48 + (v - 52)))) by lia.
    rewrite (proj2 (N.leb_le 48 (48 + (v - 52)))), (proj2 (N.leb_le (48 + (v - 52)) 57)) by lia.
    simpl. f_equal. lia.
  - subst v. reflexivity.
  - assert (v = 63) as -> by lia. reflexivity.
Qed.

(** No character of the alphabet is [=], [:] or white space. *)
Lemma base64_char_plain (v : N) :
  base64_char v ≠ 61 ∧ base64_char v ≠ colon ∧ is_ascii_whitespace (base64_char v) = false.
Proof.
  unfold base64_char, is_ascii_whitespace, colon.
  destruct (N.ltb_spec v 26); [|destruct (N.ltb_spec v 52); [|destruct (N.ltb_spec v 62);
    [|destruct (N.eqb_spec v 62)]]];
    (split; [lia|split; [lia|]]);
    repeat match goal with
    | |- context [?a =? ?b] => rewrite (proj2 (N.eqb_neq a b)) by lia
    end; reflexivity.
Qed.

(** The text [btoa] makes of a byte sequence. *)
Definition base64_text (bs : list N) : list N :=
  map base64_char (sextets bs) ++ padding (length bs).

Lemma btoa_bytes (bs : list N) :
  Forall (λ n, n < 256) bs → btoa bs = Resolved (base64_text bs).
Proof.
  intros H. unfold btoa.
  assert (forallb (λ c, c <=? 255) bs = true) as ->; [|reflexivity].
  apply forallb_forall. intros c Hc. rewrite Forall_forall in H.
  apply N.leb_le. apply list_elem_of_In in Hc. specialize (H c Hc). lia.
Qed.

Lemma padding_cases (n : nat) : padding n = [] ∨ padding n = [61] ∨ padding n = [61; 61].
Proof.
  unfold padding. destruct (n mod 3)%nat as [|[|[|k]]]; auto.
Qed.

Lemma base64_text_plain (bs : list N) :
  Forall (λ c, c ≠ colon ∧ is_ascii_whitespace c = false) (base64_text bs).
Proof.
  unfold base64_text. apply Forall_app. split.
  - apply Forall_forall. intros c Hc. apply list_elem_of_In, in_map_iff in Hc.
    destruct Hc as (v & <- & _). pose proof (base64_char_plain v). tauto.
  - destruct (padding_cases (length bs)) as [->|[->| ->]];
      repeat constructor; (unfold colon; lia).
Qed.

Lemma strip_padding_text (body pad : list N) :
  (length (body ++ pad) mod 4 = 0)%nat →
  Forall (λ c, c ≠ 61) body →
  pad = [] ∨ pad = [61] ∨ pad = [61; 61] →
  strip_padding (body ++ pad) = body.
Proof.
  intros Hlen Hbody Hpad. unfold strip_padding.
  rewrite Hlen. cbn [Nat.eqb]. rewrite rev_app_distr.
  assert (Hhead : ∀ c r, rev body = c :: r → (c =? 61) = false).
  { intros c r Hr. apply N.eqb_neq. rewrite Forall_forall in Hbody.
    apply Hbody. apply list_elem_of_In, in_rev. rewrite Hr. now left. }
  destruct Hpad as [->|[->| ->]]; cbn [rev app].
  - rewrite app_nil_r. destruct (rev body) as [|c r] eqn:Hr; [reflexivity|].
    now rewrite (Hhead c r eq_refl).
  - cbn [N.eqb Pos.eqb]. destruct (rev body) as [|c r] eqn:Hr.
    + apply (f_equal (@rev N)) in Hr. rewrite rev_involutive in Hr.
      subst body. reflexivity.
    + rewrite (Hhead c r eq_refl), <- Hr. apply rev_involutive.
  - cbn [N.eqb Pos.eqb]. apply rev_involutive.
Qed.

(** [atob] undoes [btoa] on bytes. *)
Lemma atob_base64_text (bs : list N) :
  Forall (λ n, n < 256) bs → atob (base64_text bs) = Resolved bs.
Proof.
  intros Hbs. unfold atob.
  assert (filter (λ c, negb (is_ascii_whitespace c)) (base64_text bs) = base64_text bs) as ->.
  { pose proof (base64_text_plain bs) as Hp.
    induction Hp as [|c l [_ Hc] _ IH]; [reflexivity|].
    rewrite filter_cons. rewrite Hc. simpl. now rewrite IH. }
  pose proof (sextets_length bs) as [Hl1 Hl2].
  unfold base64_text. rewrite strip_padding_text.
  - rewrite length_map. destruct (Nat.eqb_spec (length (sextets bs) mod 4) 1); [contradiction|].
    rewrite mapM_fmap_Forall_Some.
    + now rewrite octets_sextets.
    + eapply Forall_impl; [apply sextets_bounded, Hbs|].
      intros v Hv. now apply base64_value_char.
  - now rewrite length_app, length_map.
  - apply Forall_forall. intros c Hc. apply list_elem_of_In, in_map_iff in Hc.
    destruct Hc as (v & <- & _). apply base64_char_plain.
  - apply padding_cases.
Qed.

Lemma bytesToBase64_text (bytes : list byte) :
  bytesToBase64 bytes = Resolved (base64_text (map Byte.to_N bytes)).
Proof.
  unfold bytesToBase64.
  assert (∀ acc, fold_left (λ binary byte, binary ++ [Byte.to_N byte]) bytes acc
                 = acc ++ map Byte.to_N bytes) as ->.
  { induction bytes as [|b bytes IH]; intros acc; simpl; [now rewrite app_nil_r|].
    now rewrite IH, <- app_assoc. }
  apply btoa_bytes, Forall_to_N_bounded.
Qed.

Lemma base64ToBytes_text (bytes : list byte) :
  base64ToBytes (base64_text (map Byte.to_N bytes)) = Resolved bytes.
Proof.
  unfold base64ToBytes. rewrite atob_base64_text by apply Forall_to_N_bounded.
  simpl. now rewrite map_uint8_to_N.
Qed.


(** *** The envelope *)

Lemma split_plain (sep : N) (s : list N) : Forall (λ c, c ≠ sep) s → split sep s = [s].
Proof.
  induction 1 as [|c s Hc _ IH]; [reflexivity|].
  cbn [split]. rewrite (proj2 (N.eqb_neq c sep)) by assumption. now rewrite IH.
Qed.

Lemma split_app (sep : N) (s rest : list N) :
  Forall (λ c, c ≠ sep) s → split sep (s ++ sep :: rest) = s :: split sep rest.
Proof.
  induction 1 as [|c s Hc _ IH]; cbn [app split].
  - now rewrite N.eqb_refl.
  - rewrite (proj2 (N.eqb_neq c sep)) by assumption. now rewrite IH.
Qed.

Lemma base64_text_nonempty (bs : list N) : bs ≠ [] → base64_text bs ≠ [].
Proof. destruct bs as [|a [|b [|c l]]]; [congruence|discriminate..]. Qed.

(** *** UTF-8 *)

Lemma shiftr_div (a n : N) : N.shiftr a n = a / 2 ^ n.
Proof. apply N.shiftr_div_pow2. Qed.

Lemma land_low (a n : N) : N.land a (N.ones n) = a mod 2 ^ n.
Proof. apply N.land_ones. Qed.

Lemma lor_disjoint (a b n : N) : b < 2 ^ n → N.lor (a * 2 ^ n) b = a * 2 ^ n + b.
Proof.
  intros Hb.
  assert (Hland : N.land (a * 2 ^ n) b = 0).
  { apply N.bits_inj. intros i. rewrite N.land_spec, N.bits_0.
    destruct (N.lt_ge_cases i n) as [Hi|Hi].
    - now rewrite N.mul_pow2_bits_low.
    - rewrite <- (N.mod_small b (2 ^ n)) by assumption.
      rewrite N.mod_pow2_bits_high by assumption. apply andb_false_r. }
  now rewrite <- N.lxor_lor, <- N.add_nocarry_lxor.
Qed.

Lemma continuation_byte (x : N) : N.lor 0x80 (N.land x 0x3F) = 128 + x mod 64.
Proof.
  change 0x80 with (2 * 2 ^ 6). change 0x3F with (N.ones 6).
  rewrite land_low, lor_disjoint; [reflexivity|]. apply N.mod_lt. discriminate.
Qed.

Lemma accumulate (cp b : N) : N.lor (N.shiftl cp 6) (N.land b 0x3F) = cp * 64 + b mod 64.
Proof.
  change 0x3F with (N.ones 6). rewrite land_low, N.shiftl_mul_pow2, lor_disjoint;
    [reflexivity|]. apply N.mod_lt. discriminate.
Qed.

Definition is_scalar_value (cp : N) : Prop := cp < 0xD800 ∨ (0xE000 ≤ cp ∧ cp < 0x110000).

Ltac decide_tests :=
  repeat match goal with
  | |- context [?a <=? ?b] =>
      first [rewrite (proj2 (N.leb_le a b)) by lia | rewrite (proj2 (N.leb_gt a b)) by lia]
  | |- context [?a <? ?b] =>
      first [rewrite (proj2 (N.ltb_lt a b)) by lia | rewrite (proj2 (N.ltb_ge a b)) by lia]
  | |- context [?a =? ?b] =>
      first [rewrite (proj2 (N.eqb_eq a b)) by lia | rewrite (proj2 (N.eqb_neq a b)) by lia]
  end.

Lemma utf8_bytes_arith (cp : N) :
  utf8_bytes cp =
  if cp <? 0x80 then [cp]
  else if cp <? 0x800 then [cp / 64 + 192; 128 + cp mod 64]
  else if cp <? 0x10000 then [cp / 4096 + 224; 128 + (cp / 64) mod 64; 128 + cp mod 64]
  else [cp / 262144 + 240; 128 + (cp / 4096) mod 64; 128 + (cp / 64) mod 64; 128 + cp mod 64].
Proof.
  unfold utf8_bytes. rewrite !continuation_byte, !shiftr_div. reflexivity.
Qed.

Lemma utf8_bytes_bounded (cp : N) : cp < 0x110000 → Forall (λ n, n < 256) (utf8_bytes cp).
Proof.
  intros Hcp. rewrite utf8_bytes_arith.
  destruct (N.ltb_spec cp 0x80); [|destruct (N.ltb_spec cp 0x800);
    [|destruct (N.ltb_spec cp 0x10000)]]; repeat constructor; lia.
Qed.

Ltac decoder_step :=
  cbn [app utf8_decode utf8_initial bytes_needed bytes_seen lower_boundary upper_boundary
       code_point N.eqb Pos.eqb N.add Pos.add Pos.succ andb];
  unfold utf8_lead;
  decide_tests;
  repeat match goal with
  | |- context [if ?a =? ?b then _ else _] => destruct (N.eqb_spec a b)
  end;
  decide_tests;
  cbn [app utf8_decode utf8_initial bytes_needed bytes_seen lower_boundary upper_boundary
       code_point N.eqb Pos.eqb N.add Pos.add Pos.succ andb].

Lemma utf8_decode_bytes (cp : N) (rest : list N) :
  is_scalar_value cp →
  utf8_decode utf8_initial (utf8_bytes cp ++ rest) = cp :: utf8_decode utf8_initial rest.
Proof.
  unfold is_scalar_value. intros Hcp. rewrite utf8_bytes_arith.
  destruct (N.ltb_spec cp 0x80); [|destruct (N.ltb_spec cp 0x800);
    [|destruct (N.ltb_spec cp 0x10000)]].
  - decoder_step. reflexivity.
  - do 2 decoder_step.
    rewrite accumulate. change 0x1F with (N.ones 5). rewrite land_low.
    f_equal. lia.
  - do 3 decoder_step.
    all: rewrite !accumulate; change 0xF with (N.ones 4); rewrite land_low.
    all: f_equal; lia.
  - do 4 decoder_step.
    all: rewrite !accumulate; change 0x7 with (N.ones 3); rewrite land_low.
    all: f_equal; lia.
Qed.

Lemma utf8_decode_scalars (cps : list N) :
  Forall is_scalar_value cps → utf8_decode utf8_initial (flat_map utf8_bytes cps) = cps.
Proof.
  induction 1 as [|cp cps Hcp _ IH]; [reflexivity|].
  cbn [flat_map]. now rewrite utf8_decode_bytes, IH.
Qed.

Lemma utf8_bytes_scalars_bounded (cps : list N) :
  Forall is_scalar_value cps → Forall (λ n, n < 256) (flat_map utf8_bytes cps).
Proof.
  induction 1 as [|cp cps Hcp _ IH]; [constructor|].
  cbn [flat_map]. apply Forall_app. split; [|assumption].
  apply utf8_bytes_bounded. unfold is_scalar_value in Hcp. lia.
Qed.

Ltac surrogate_facts :=
  unfold is_lead_surrogate, is_trail_surrogate in *;
  repeat match goal with
  | H : _ && _ = true |- _ => apply andb_true_iff in H as [? ?]
  | H : _ && _ = false |- _ => apply andb_false_iff in H as [?|?]
  | H : negb _ = true |- _ => apply negb_true_iff in H
  | H : (_ <=? _) = true |- _ => apply N.leb_le in H
  | H : (_ <=? _) = false |- _ => apply N.leb_gt in H
  | H : (_ <? _) = true |- _ => apply N.ltb_lt in H
  | H : (_ <? _) = false |- _ => apply N.ltb_ge in H
  end.

(** On a well-formed string the scalar values are scalar values indeed and
    spell the string back. *)
Lemma wellFormed_scalar_values (n : nat) (s : list N) :
  (length s ≤ n)%nat → isWellFormed s = true →
  Forall is_scalar_value (scalar_values s) ∧ flat_map code_units (scalar_values s) = s.
Proof.
  revert s. induction n as [|n IH]; intros s Hlen Hwf.
  - destruct s; [split; [constructor|reflexivity]|simpl in Hlen; lia].
  - destruct s as [|c rest]; [split; [constructor|reflexivity]|].
    cbn [isWellFormed scalar_values] in *.
    destruct (is_lead_surrogate c) eqn:Hlead.
    + destruct rest as [|d rest']; [discriminate|].
      apply andb_true_iff in Hwf as [Hd Hwf]. rewrite Hd.
      destruct (IH rest') as [IH1 IH2]; [simpl in Hlen; lia|assumption|].
      surrogate_facts. rewrite N.shiftl_mul_pow2. split.
      * constructor; [|assumption]. unfold is_scalar_value. lia.
      * cbn [flat_map app]. rewrite IH2. unfold code_units.
        rewrite (proj2 (N.ltb_ge _ _)) by lia.
        rewrite shiftr_div. change 0x3FF with (N.ones 10). rewrite land_low.
        cbn [app]. f_equal; [lia|]. f_equal. lia.
    + apply andb_true_iff in Hwf as [Hc Hwf]. apply andb_true_iff in Hc as [Hnt Hlt].
      apply negb_true_iff in Hnt. rewrite Hnt.
      destruct (IH rest) as [IH1 IH2]; [simpl in Hlen; lia|assumption|].
      assert (c < 0xD800 ∨ (0xE000 ≤ c ∧ c < 0x10000)) as Hc
        by (surrogate_facts; lia).
      split.
      * constructor; [|assumption]. unfold is_scalar_value. lia.
      * cbn [flat_map app]. rewrite IH2. unfold code_units.
        rewrite (proj2 (N.ltb_lt _ _)) by lia. reflexivity.
Qed.

(** A string that does not start with U+FEFF has no byte order mark to
    lose. *)
Lemma strip_BOM_scalar_values (s : list N) :
  head s ≠ Some 0xFEFF → strip_BOM (scalar_values s) = scalar_values s.
Proof.
  destruct s as [|c rest]; [reflexivity|]. cbn [head scalar_values]. intros Hc.
  assert (∀ cp l, cp ≠ 0xFEFF → strip_BOM (cp :: l) = cp :: l) as Hkeep.
  { intros cp l Hcp. cbn [strip_BOM]. now rewrite (proj2 (N.eqb_neq _ _)). }
  destruct (is_lead_surrogate c) eqn:Hlead.
  - destruct rest as [|d rest']; [reflexivity|].
    destruct (is_trail_surrogate d) eqn:Htrail; apply Hkeep; [|discriminate].
    surrogate_facts. rewrite N.shiftl_mul_pow2. lia.
  - destruct (is_trail_surrogate c); apply Hkeep; [discriminate|congruence].
Qed.

(** [TextDecoder.decode] undoes [TextEncoder.encode] on a well-formed string
    that does not start with U+FEFF. *)
Lemma TextDecoder_TextEncoder (s : list N) :
  isWellFormed s = true → head s ≠ Some 0xFEFF →
  TextDecoder_decode (TextEncoder_encode s) = s.
Proof.
  intros Hwf Hbom. unfold TextDecoder_decode, TextEncoder_encode.
  destruct (wellFormed_scalar_values (length s) s (le_n _) Hwf) as [Hsc Hs].
  rewrite map_to_N_uint8 by now apply utf8_bytes_scalars_bounded.
  now rewrite utf8_decode_scalars, strip_BOM_scalar_values.
Qed.

Section Envelope.

Variable toLowerCase : list N → list N.
Variable sha256 : list byte → list byte.
Variable aes_gcm_encrypt : list byte → list byte → list byte → list byte.
Variable aes_gcm_decrypt : list byte → list byte → list byte → option (list byte).

Local Abbreviation deriveKey := (Cipher.deriveKey toLowerCase sha256).
Local Abbreviation encryptSecret := (Cipher.encryptSecret toLowerCase sha256 aes_gcm_encrypt).
Local Abbreviation decryptSecret := (Cipher.decryptSecret toLowerCase sha256 aes_gcm_decrypt).

(** The tagged text of an IV and a sealed payload. *)
Definition envelope (iv data : list byte) : list N :=
  dv1 ++ [colon] ++ base64_text (map Byte.to_N iv) ++ [colon] ++ base64_text (map Byte.to_N data).

Lemma encryptSecret_envelope (iv : list byte) (address plaintext : list N) :
  encryptSecret iv address plaintext =
  Resolved (envelope iv (aes_gcm_encrypt (deriveKey address) iv (TextEncoder_encode plaintext))).
Proof. unfold Cipher.encryptSecret. now rewrite !bytesToBase64_text. Qed.

Lemma split_envelope (iv data : list byte) :
  split colon (envelope iv data) =
  [dv1; base64_text (map Byte.to_N iv); base64_text (map Byte.to_N data)].
Proof.
  assert (∀ bs, Forall (λ c, c ≠ colon) (base64_text bs)) as Hplain.
  { intros bs. eapply Forall_impl; [apply base64_text_plain|]. now intros c [Hc _]. }
  unfold envelope. cbn [app].
  rewrite (split_app colon dv1) by (repeat constructor; discriminate).
  rewrite split_app by apply Hplain. now rewrite split_plain by apply Hplain.
Qed.

(** Opening an envelope: the pieces are found, both base64 fields decode to
    the bytes they were made from, and the outcome is that of AES-GCM under
    the key derived from the address given. *)
Lemma decryptSecret_envelope (other : list N) (iv data : list byte) :
  iv ≠ [] → data ≠ [] →
  decryptSecret other (envelope iv data) =
  match aes_gcm_decrypt (deriveKey other) iv data with
  | Some decrypted => Resolved (TextDecoder_decode decrypted)
  | None => Rejected OperationError
  end.
Proof.
  intros Hiv Hdata. unfold Cipher.decryptSecret. rewrite split_envelope.
  cbn [lookup list_lookup default].
  rewrite bool_decide_eq_true_2 by reflexivity. cbn [negb orb].
  assert (∀ bs : list byte, bs ≠ [] → falsy (Some (base64_text (map Byte.to_N bs))) = false)
    as Hfalsy.
  { intros bs Hbs. unfold falsy.
    destruct (base64_text (map Byte.to_N bs)) eqn:Ht; [|reflexivity].
    apply base64_text_nonempty in Ht; [contradiction|]. now destruct bs. }
  rewrite !Hfalsy by assumption. cbn [orb].
  unfold id. rewrite !base64ToBytes_text. reflexivity.
Qed.

End Envelope.

(** [TextEncoder.encode] tells well-formed strings apart. *)
Lemma TextEncoder_encode_injective (s1 s2 : list N) :
  isWellFormed s1 = true → isWellFormed s2 = true →
  TextEncoder_encode s1 = TextEncoder_encode s2 → s1 = s2.
Proof.
  intros Hwf1 Hwf2 Henc.
  destruct (wellFormed_scalar_values (length s1) s1 (le_n _) Hwf1) as [Hsc1 Hs1].
  destruct (wellFormed_scalar_values (length s2) s2 (le_n _) Hwf2) as [Hsc2 Hs2].
  apply (f_equal (map Byte.to_N)) in Henc. unfold TextEncoder_encode in Henc.
  rewrite !map_to_N_uint8 in Henc by now apply utf8_bytes_scalars_bounded.
  apply (f_equal (utf8_decode utf8_initial)) in Henc.
  rewrite !utf8_decode_scalars in Henc by assumption.
  now rewrite <- Hs1, <- Hs2, Henc.
Qed.

(** The two idealisations of the primitives under which a wrong key is
    shown to fail: the digest does not collide on two given inputs, and a
    sealed text opens under no 32-byte key but the one that sealed it. *)
Definition no_collision (sha256 : list byte → list byte) (x y : list byte) : Prop :=
  sha256 x = sha256 y → x = y.

Definition opens_under_no_other_key
    (aes_gcm_encrypt : list byte → list byte → list byte → list byte)
    (aes_gcm_decrypt : list byte → list byte → list byte → option (list byte))
    (key iv data : list byte) : Prop :=
  ∀ other_key, length other_key = 32%nat → other_key ≠ key →
    aes_gcm_decrypt other_key iv (aes_gcm_encrypt key iv data) = None.

Section RoundTrip.

Variable toLowerCase : list N → list N.
Variable sha256 : list byte → list byte.
Variable aes_gcm_encrypt : list byte → list byte → list byte → list byte.
Variable aes_gcm_decrypt : list byte → list byte → list byte → option (list byte).

(** What the proofs take from the platform: a digest of 32 bytes, a sealed
    text that carries a 16-byte tag after the data, and opening under the
    key and IV of the sealing. *)
Hypothesis sha256_length : ∀ data, length (sha256 data) = 32%nat.
Hypothesis encrypt_length : ∀ key iv data,
  length (aes_gcm_encrypt key iv data) = (length data + 16)%nat.
Hypothesis decrypt_encrypt : ∀ key iv data,
  length key = 32%nat → length iv = 12%nat →
  aes_gcm_decrypt key iv (aes_gcm_encrypt key iv data) = Some data.

Local Abbreviation deriveKey := (Cipher.deriveKey toLowerCase sha256).
Local Abbreviation encryptSecret := (Cipher.encryptSecret toLowerCase sha256 aes_gcm_encrypt).
Local Abbreviation decryptSecret := (Cipher.decryptSecret toLowerCase sha256 aes_gcm_decrypt).

Lemma sealed_nonempty (key iv data : list byte) : aes_gcm_encrypt key iv data ≠ [].
Proof.
  intros He. pose proof (encrypt_length key iv data) as Hl. rewrite He in Hl.
  simpl in Hl. lia.
Qed.

(** With the address of the encryption, [decryptSecret] returns the
    plaintext as the text codecs carry it. *)
Lemma decryptSecret_same_address (iv : list byte) (address plaintext : list N) :
  length iv = 12%nat →
  decryptSecret address
    (envelope iv (aes_gcm_encrypt (deriveKey address) iv (TextEncoder_encode plaintext)))
  = Resolved (TextDecoder_decode (TextEncoder_encode plaintext)).
Proof.
  intros Hiv. rewrite decryptSecret_envelope.
  - rewrite decrypt_encrypt; [reflexivity|apply sha256_length|assumption].
  - intros ->. discriminate.
  - apply sealed_nonempty.
Qed.

(** A leading U+FEFF does not come back, whatever the cipher. *)
Lemma decryptSecret_drops_BOM (iv : list byte) (address rest : list N) :
  length iv = 12%nat → isWellFormed rest = true →
  decryptSecret address
    (envelope iv (aes_gcm_encrypt (deriveKey address) iv (TextEncoder_encode (0xFEFF :: rest))))
  = Resolved rest.
Proof.
  intros Hiv Hwf. rewrite decryptSecret_same_address by assumption. f_equal.
  unfold TextDecoder_decode, TextEncoder_encode.
  destruct (wellFormed_scalar_values (length rest) rest (le_n _) Hwf) as [Hsc Hs].
  change (scalar_values (0xFEFF :: rest)) with (0xFEFF :: scalar_values rest).
  rewrite map_to_N_uint8.
  - rewrite utf8_decode_scalars; [exact Hs|].
    constructor; [right; split; [discriminate|reflexivity]|assumption].
  - apply utf8_bytes_scalars_bounded.
    constructor; [right; split; [discriminate|reflexivity]|assumption].
Qed.

(** Well-formed addresses that differ after [toLowerCase] derive different
    keys, short of a collision of the digest. *)
Lemma deriveKey_differs (address other : list N) :
  isWellFormed (toLowerCase other) = true →
  isWellFormed (toLowerCase address) = true →
  toLowerCase other ≠ toLowerCase address →
  no_collision sha256 (TextEncoder_encode (toLowerCase other))
    (TextEncoder_encode (toLowerCase address)) →
  deriveKey other ≠ deriveKey address.
Proof.
  intros Hwf1 Hwf2 Hne Hcol Hkey. apply Hne.
  apply TextEncoder_encode_injective; [assumption..|]. now apply Hcol.
Qed.


End RoundTrip.

(** *** Closed instances on the stand-in primitives *)

Local Abbreviation demo_encryptSecret :=
  (Cipher.encryptSecret demo_toLowerCase demo_sha256 demo_encrypt).
Local Abbreviation demo_decryptSecret :=
  (Cipher.decryptSecret demo_toLowerCase demo_sha256 demo_decrypt).

Lemma demo_sha256_length (data : list byte) : length (demo_sha256 data) = 32%nat.
Proof.
  unfold demo_sha256. rewrite length_take, length_app, repeat_length. lia.
Qed.

Lemma demo_tag_length (key iv : list byte) : length (demo_tag key iv) = 16%nat.
Proof.
  unfold demo_tag. rewrite length_take, !length_app, repeat_length. lia.
Qed.

Lemma demo_encrypt_length (key iv data : list byte) :
  length (demo_encrypt key iv data) = (length data + 16)%nat.
Proof. unfold demo_encrypt. now rewrite length_app, demo_tag_length. Qed.

Lemma demo_decrypt_encrypt (key iv data : list byte) :
  length key = 32%nat → length iv = 12%nat →
  demo_decrypt key iv (demo_encrypt key iv data) = Some data.
Proof.
  intros _ _. unfold demo_decrypt, demo_encrypt.
  rewrite length_app, demo_tag_length.
  replace (length data + 16 - 16)%nat with (length data) by lia.
  rewrite drop_app_length, take_app_length.
  now rewrite bool_decide_eq_true_2.
Qed.

(** The IV 01 02 ... 0c, the addresses ["0xAB"], ["0xab"] and ["0xac"]. *)
Definition sample_iv : list byte :=
  [x01; x02; x03; x04; x05; x06; x07; x08; x09; x0a; x0b; x0c].
Definition sample_address : list N := [48; 120; 65; 66].
Definition sample_address_lower : list N := [48; 120; 97; 98].
Definition sample_address_other : list N := [48; 120; 97; 99].


(** A plaintext with a lone surrogate comes back with U+FFFD in its
    place. *)
Lemma plaintext_with_lone_surrogate_not_recovered :
  and_then (demo_encryptSecret sample_iv sample_address [104; 0xD800; 105])
           (demo_decryptSecret sample_address)
  = Resolved [104; 0xFFFD; 105].
Proof. vm_compute. reflexivity. Qed.

(** A different address string that differs in letter case only opens the
    text and yields the matching plaintext. *)
Lemma other_case_address_decrypts :
  sample_address_lower ≠ sample_address
  ∧ and_then (demo_encryptSecret sample_iv sample_address [104; 105])
             (demo_decryptSecret sample_address_lower)
    = Resolved [104; 105].
Proof. split; [discriminate|vm_compute; reflexivity]. Qed.

(** A stand-in for AES-GCM whose 16-byte tag names the key when the key ends
    in sixteen zero bytes, as the keys of [demo_sha256] on short inputs
    do. *)
Definition binding_tag (key : list byte) : list byte :=
  if bool_decide (drop 16 key = repeat x00 16)
  then take 16 (key ++ repeat x00 16)
  else repeat xff 16.

Definition binding_encrypt (key iv data : list byte) : list byte :=
  data ++ binding_tag key.

Definition binding_decrypt (key iv data : list byte) : option (list byte) :=
  let n := (length data - 16)%nat in
  if bool_decide (drop n data = binding_tag key) then Some (take n data) else None.

Lemma binding_tag_length (key : list byte) : length (binding_tag key) = 16%nat.
Proof.
  unfold binding_tag. case_bool_decide.
  - rewrite length_take, length_app, repeat_length. lia.
  - apply repeat_length.
Qed.

Lemma binding_encrypt_length (key iv data : list byte) :
  length (binding_encrypt key iv data) = (length data + 16)%nat.
Proof. unfold binding_encrypt. now rewrite length_app, binding_tag_length. Qed.

Lemma binding_open (key key' iv data : list byte) :
  binding_decrypt key' iv (binding_encrypt key iv data)
  = if bool_decide (binding_tag key = binding_tag key') then Some data else None.
Proof.
  unfold binding_decrypt, binding_encrypt.
  rewrite length_app, binding_tag_length.
  replace (length data + 16 - 16)%nat with (length data) by lia.
  now rewrite drop_app_length, take_app_length.
Qed.

Lemma binding_decrypt_encrypt (key iv data : list byte) :
  length key = 32%nat → length iv = 12%nat →
  binding_decrypt key iv (binding_encrypt key iv data) = Some data.
Proof. intros _ _. rewrite binding_open. now rewrite bool_decide_eq_true_2. Qed.

(** A key of 32 bytes that ends in sixteen zero bytes and does not start
    with sixteen bytes ff is the only 32-byte key under which its sealed
    texts open. *)
Lemma binding_opens_under_no_other_key (key iv data : list byte) :
  length key = 32%nat → drop 16 key = repeat x00 16 → take 16 key ≠ repeat xff 16 →
  opens_under_no_other_key binding_encrypt binding_decrypt key iv data.
Proof.
  intros Hlen Htail Hhead other Hother Hne. rewrite binding_open.
  rewrite bool_decide_eq_false_2; [reflexivity|]. intros Htag. apply Hne.
  unfold binding_tag in Htag. rewrite (bool_decide_eq_true_2 _ Htail) in Htag.
  rewrite take_app_le in Htag by lia.
  case_bool_decide as Htail'; [|contradiction].
  rewrite take_app_le in Htag by lia.
  rewrite <- (take_drop 16 other), <- (take_drop 16 key). congruence.
Qed.

Local Abbreviation binding_encryptSecret :=
  (Cipher.encryptSecret demo_toLowerCase demo_sha256 binding_encrypt).
Local Abbreviation binding_decryptSecret :=
  (Cipher.decryptSecret demo_toLowerCase demo_sha256 binding_decrypt).

(** Two addresses that are different strings after [toLowerCase], each an
    unpaired surrogate, have the same UTF-8 bytes and so the same key. *)
Lemma unpaired_surrogate_addresses_share_key :
  demo_toLowerCase [0xD801] ≠ demo_toLowerCase [0xD800]
  ∧ and_then (demo_encryptSecret sample_iv [0xD800] [104; 105])
             (demo_decryptSecret [0xD801])
    = Resolved [104; 105].
Proof. split; [discriminate|vm_compute; reflexivity]. Qed.


End CipherFacts.

(** ** Part V: further properties of the vault ledger *)

Module LedgerExtras.
Import Ledger LedgerFacts.

(** What a transaction logs when it succeeds, in the world it runs in. *)
Definition event_of (w : World) (tx : Tx) : Event :=
  match call tx with
  | CreateVault _ _ => VaultCreated (sender tx)
  | RotateVaultKey _ _ => VaultKeyRotated (sender tx)
  | StoreSecret _ =>
      SecretStored (sender tx) (N.of_nat (length (ciphertexts (vaults w !!! sender tx))))
  end.

(** The indices of the [SecretStored] events of an owner, oldest first. *)
Definition stored_indices (owner : N) (l : list Event) : list N :=
  flat_map (fun e =>
    match e with
    | SecretStored o i => if decide (o = owner) then [i] else []
    | _ => []
    end) l.

(** The [VaultCreated] events of an owner. *)
Definition created_events (owner : N) (l : list Event) : list Event :=
  List.filter (fun e =>
    match e with
    | VaultCreated o => bool_decide (o = owner)
    | _ => false
    end) l.

Section Extras.

Variable this : N.
Variable fromExternal : N -> N -> string -> option N.

Local Abbreviation createVault := (Ledger.createVault this fromExternal).
Local Abbreviation rotateVaultKey := (Ledger.rotateVaultKey this fromExternal).
Local Abbreviation outcome := (Ledger.outcome this fromExternal).
Local Abbreviation next := (Ledger.next this fromExternal).
Local Abbreviation succeeds := (Ledger.succeeds this fromExternal).
Local Abbreviation run := (Ledger.run this fromExternal).
Local Abbreviation successful := (Ledger.successful this fromExternal).
Local Abbreviation reachable := (Ledger.reachable this fromExternal).

(** The handles the key transactions of an owner had validated. *)
Definition validated_keys (owner : N) (txs : list Tx) : list N :=
  flat_map (fun tx =>
    match call tx with
    | CreateVault k p | RotateVaultKey k p =>
        if decide (sender tx = owner)
        then option_list (fromExternal (sender tx) k p)
        else []
    | StoreSecret _ => []
    end) txs.

Ltac run_tx tx :=
  let s := fresh "s" in
  destruct tx as [s [?k ?p|?k ?p|?c]];
  unfold Ledger.succeeds, Ledger.outcome, Ledger.next, Ledger.dispatch; simpl;
  rewrite ?createVault_run, ?rotateVaultKey_run, ?storeSecret_run.

Lemma logs_next (w : World) (tx : Tx) :
  logs (next w tx) = logs w ++ (if succeeds w tx then [event_of w tx] else []).
Proof.
  run_tx tx; unfold event_of; simpl;
    destruct (initialized (vaults w !!! s)); simpl; rewrite ?app_nil_r; try reflexivity;
    destruct (fromExternal s k p); simpl; rewrite ?app_nil_r; reflexivity.
Qed.

Lemma outcome_succeeds (w : World) (tx : Tx) :
  outcome w tx = None ↔ succeeds w tx = true.
Proof. unfold Ledger.succeeds. destruct (outcome w tx); split; congruence. Qed.

(** In a reachable world a record whose flag is down is the zero record. *)
Lemma uninitialized_zero (w : World) (o : N) :
  reachable w → initialized (vaults w !!! o) = false → vaults w !!! o = zero_vault.
Proof.
  induction 1 as [g|w tx Hw IH]; [intros _; apply genesis_vault|].
  destruct (decide (o = sender tx)) as [->|Hne].
  - rewrite next_own. simpl. destruct (succeeds w tx); [|assumption].
    destruct (call tx); discriminate.
  - now rewrite next_other.
Qed.

(** X1.  An owner who has not created a vault has the all-zero record in
    every reachable world: [getVaultKey] returns the zero handle, which is
    what the callers compare with [ZeroHash] before asking for a
    decryption. *)
Theorem never_created_zero_key (w : World) (O : N) :
  reachable w → view (hasVault O) w = Ok false →
  view (getVaultKey O) w = Ok 0 ∧ vaults w !!! O = zero_vault.
Proof.
  rewrite view_hasVault, view_getVaultKey. intros Hw [= Hi].
  now rewrite (uninitialized_zero w O Hw Hi).
Qed.

Lemma validated_keys_app (o : N) (txs1 txs2 : list Tx) :
  validated_keys o (txs1 ++ txs2) = validated_keys o txs1 ++ validated_keys o txs2.
Proof. apply flat_map_app. Qed.

Lemma key_run (w : World) (txs : list Tx) (o : N) :
  encryptedKey (vaults (run w txs) !!! o) =
  default (encryptedKey (vaults w !!! o)) (last (validated_keys o (successful w txs))).
Proof.
  revert w. induction txs as [|tx txs IH]; intros w; [reflexivity|].
  cbn [Ledger.run Ledger.successful]. rewrite IH, validated_keys_app, last_app.
  destruct (last (validated_keys o (successful (next w tx) txs))) as [k|]; [reflexivity|].
  cbn [default].
  destruct (decide (o = sender tx)) as [->|Hne].
  - rewrite next_own. cbn zeta. destruct (succeeds w tx) eqn:Hs; [|reflexivity].
    rewrite succeeds_spec in Hs.
    destruct tx as [s [k p|k p|c]]; cbn [call sender] in *;
      unfold validated_keys; cbn [flat_map call sender app];
      rewrite ?decide_True by reflexivity; [| |reflexivity];
      apply andb_true_iff in Hs as [_ Hs]; apply bool_decide_eq_true in Hs as [vk Hv];
      rewrite Hv; reflexivity.
  - rewrite next_other by assumption.
    assert (validated_keys o (if succeeds w tx then [tx] else []) = []) as ->; [|reflexivity].
    destruct (succeeds w tx); [|reflexivity]. unfold validated_keys. cbn [flat_map].
    destruct (call tx); rewrite ?decide_False by congruence; reflexivity.
Qed.

(** X2.  After any history [getVaultKey(O)] is the handle validated in the
    last [createVault] or [rotateVaultKey] of [O] that succeeded, and the
    zero handle when there is none. *)
Theorem getVaultKey_last_validated (g : gset (N * N)) (txs : list Tx) (O : N) :
  view (getVaultKey O) (run (genesis g) txs)
  = Ok (default 0 (last (validated_keys O (successful (genesis g) txs)))).
Proof. now rewrite view_getVaultKey, key_run, genesis_vault. Qed.

(** X3.  [rotateVaultKey] succeeds exactly when the caller's vault is
    initialized and the access layer accepts the input.  A rejected input
    fails the call with the access layer's error and changes nothing; a
    success makes the validated handle the one [getVaultKey] returns and
    logs one [VaultKeyRotated] event of the caller. *)
Theorem rotateVaultKey_spec (w : World) (s k : N) (p : string) :
  let tx := mkTx s (RotateVaultKey k p) in
  (succeeds w tx = true ↔
     view (hasVault s) w = Ok true ∧ is_Some (fromExternal s k p))
  ∧ (view (hasVault s) w = Ok true → fromExternal s k p = None →
       outcome w tx = Some InvalidInputProof ∧ next w tx = w)
  ∧ (∀ vk, view (hasVault s) w = Ok true → fromExternal s k p = Some vk →
       view (getVaultKey s) (next w tx) = Ok vk
       ∧ logs (next w tx) = logs w ++ [VaultKeyRotated s]).
Proof.
  cbn zeta. rewrite !view_hasVault.
  unfold Ledger.succeeds, Ledger.outcome, Ledger.next, Ledger.dispatch. cbn [call sender].
  rewrite rotateVaultKey_run.
  destruct (initialized (vaults w !!! s)); destruct (fromExternal s k p) as [vk|];
    (split; [split; [intros H; try discriminate; eauto|intros [[=] [? [=]]]; reflexivity]|]);
    (split; [intros; try discriminate; split; reflexivity|]);
    intros vk' H1 [= <-]; try discriminate.
  rewrite view_getVaultKey. cbn [vaults logs].
  now rewrite lookup_total_insert_eq.
Qed.

(** X4.  [storeSecret] succeeds exactly when the caller's vault is
    initialized, whatever the ciphertext (the empty string and repeats
    included): the index arithmetic never underflows.  On success it appends
    the string as given and leaves the caller's key handle and every grant as
    they were. *)
Theorem storeSecret_spec (w : World) (s : N) (c : string) :
  let tx := mkTx s (StoreSecret c) in
  outcome w tx = (if initialized (vaults w !!! s) then None else Some VaultMissing)
  ∧ (view (hasVault s) w = Ok true →
       ciphertexts (vaults (next w tx) !!! s) = ciphertexts (vaults w !!! s) ++ [c]
       ∧ view (getVaultKey s) (next w tx) = view (getVaultKey s) w
       ∧ grants (next w tx) = grants w).
Proof.
  cbn zeta. rewrite view_hasVault, !view_getVaultKey.
  unfold Ledger.outcome, Ledger.next, Ledger.dispatch. cbn [call sender].
  rewrite storeSecret_run.
  destruct (initialized (vaults w !!! s)); (split; [reflexivity|]); [|discriminate].
  intros _. cbn [vaults grants]. now rewrite lookup_total_insert_eq.
Qed.

(** X5.  No transaction takes a grant away: every grant of a world is still
    there after any history, so the grants on a handle that a rotation has
    replaced stay with the contract and the owner. *)
Theorem grants_never_revoked (w : World) (txs : list Tx) :
  grants w ⊆ grants (run w txs).
Proof.
  revert w. induction txs as [|tx txs IH]; intros w; [reflexivity|].
  cbn [Ledger.run]. etransitivity; [|apply IH].
  rewrite grants_next. destruct (succeeds w tx); [|reflexivity].
  destruct (call tx); cbn zeta; set_solver.
Qed.

(** What a transaction does to its sender's record depends on that record
    alone. *)
Lemma next_own_congruent (w1 w2 : World) (tx : Tx) :
  vaults w1 !!! sender tx = vaults w2 !!! sender tx →
  vaults (next w1 tx) !!! sender tx = vaults (next w2 tx) !!! sender tx.
Proof. intros H. rewrite !next_own. cbn zeta. now rewrite !succeeds_spec, H. Qed.

Lemma own_history (w1 w2 : World) (txs : list Tx) (d : N) :
  vaults w1 !!! d = vaults w2 !!! d →
  vaults (run w1 txs) !!! d
  = vaults (run w2 (filter (λ tx, sender tx = d) txs)) !!! d.
Proof.
  revert w1 w2. induction txs as [|tx txs IH]; intros w1 w2 H; [assumption|].
  rewrite filter_cons. cbn [Ledger.run]. destruct (decide (sender tx = d)) as [<-|Hne].
  - cbn [Ledger.run]. apply IH. now apply next_own_congruent.
  - apply IH. rewrite next_other by congruence. assumption.
Qed.

(** X6.  The record of an identity after a history is the one its own
    transactions alone would have produced: the transactions of all other
    senders can be left out without any difference to it. *)
Theorem vault_depends_on_own_transactions (g : gset (N * N)) (txs : list Tx) (D : N) :
  vaults (run (genesis g) txs) !!! D
  = vaults (run (genesis g) (filter (λ tx, sender tx = D) txs)) !!! D.
Proof. now apply own_history. Qed.

Lemma stored_indices_app (o : N) (l1 l2 : list Event) :
  stored_indices o (l1 ++ l2) = stored_indices o l1 ++ stored_indices o l2.
Proof. apply flat_map_app. Qed.

Lemma created_events_app (o : N) (l1 l2 : list Event) :
  created_events o (l1 ++ l2) = created_events o l1 ++ created_events o l2.
Proof. apply List.filter_app. Qed.

(** X7.  The event log mirrors the storage in every reachable world: the
    [SecretStored] events of an owner carry the indices 0, 1, ... up to the
    owner's count less one, in this order, and the log holds one
    [VaultCreated] event of the owner when the vault is initialized and none
    when it is not. *)
Theorem event_log_mirrors_storage (w : World) (O : N) :
  reachable w →
  stored_indices O (logs w)
    = map N.of_nat (seq 0 (length (ciphertexts (vaults w !!! O))))
  ∧ length (created_events O (logs w))
    = if initialized (vaults w !!! O) then 1%nat else 0%nat.
Proof.
  induction 1 as [g|w tx Hw [IH1 IH2]].
  - rewrite genesis_vault. split; reflexivity.
  - rewrite logs_next, stored_indices_app, created_events_app, length_app, IH1, IH2.
    destruct (decide (O = sender tx)) as [->|Hne].
    + rewrite next_own. cbn zeta. destruct (succeeds w tx) eqn:Hs;
        [|rewrite !app_nil_r, Nat.add_0_r; split; reflexivity].
      rewrite succeeds_spec in Hs. unfold event_of.
      destruct tx as [s [k p|k p|c]]; cbn [call sender] in *;
        cbn [stored_indices created_events flat_map List.filter length app
             initialized ciphertexts].
      * apply andb_true_iff in Hs as [Hs _]. apply negb_true_iff in Hs.
        rewrite Hs, bool_decide_eq_true_2 by reflexivity.
        rewrite app_nil_r. split; reflexivity.
      * apply andb_true_iff in Hs as [Hs _]. rewrite Hs.
        rewrite app_nil_r. split; reflexivity.
      * rewrite Hs, decide_True by reflexivity. split; [|reflexivity].
        rewrite length_app. cbn [length]. rewrite Nat.add_1_r, seq_S, map_app.
        reflexivity.
    + rewrite next_other by assumption.
      assert (stored_indices O (if succeeds w tx then [event_of w tx] else []) = []
              ∧ created_events O (if succeeds w tx then [event_of w tx] else []) = [])
        as [-> ->].
      { destruct (succeeds w tx); [|split; reflexivity]. unfold event_of.
        destruct (call tx); cbn [stored_indices created_events flat_map List.filter];
          rewrite ?decide_False by congruence;
          rewrite ?bool_decide_eq_false_2 by congruence; split; reflexivity. }
      rewrite app_nil_r, Nat.add_0_r. split; reflexivity.
Qed.

(** X8.  One vault per owner, for good: once a [createVault] of an owner has
    succeeded, every later [createVault] of that owner fails with
    [VaultAlreadyExists], whatever has run in between and whatever
    its input. *)
Theorem createVault_only_once (w : World) (O k k' : N) (p p' : string) (later : list Tx) :
  succeeds w (mkTx O (CreateVault k p)) = true →
  outcome (run (next w (mkTx O (CreateVault k p))) later) (mkTx O (CreateVault k' p'))
  = Some VaultAlreadyExists.
Proof.
  intros Hs.
  assert (initialized (vaults (next w (mkTx O (CreateVault k p))) !!! O) = true) as Hi.
  { pose proof (next_own this fromExternal w (mkTx O (CreateVault k p))) as Hown.
    cbn zeta in Hown. cbn [sender call] in Hown. rewrite Hs in Hown. now rewrite Hown. }
  unfold Ledger.outcome, Ledger.dispatch. cbn [call sender].
  rewrite createVault_run, initialized_run, Hi. reflexivity.
Qed.

End Extras.

(** *** Closed instances *)

Lemma never_created_zero_key_witness :
  view (getVaultKey 8) sample_world = Ok 0 ∧ vaults sample_world !!! 8 = zero_vault.
Proof.
  apply (never_created_zero_key sample_this sample_fromExternal).
  - exact sample_world_reachable.
  - reflexivity.
Defined.

(** Owner 7 rotates twice after the sample history; the second input is
    rejected. *)
Lemma rotateVaultKey_spec_witness :
  let w := Ledger.next sample_this sample_fromExternal sample_world
             (mkTx 7 (RotateVaultKey 43 "proof")) in
  view (getVaultKey 7) w = Ok 43
  ∧ Ledger.outcome sample_this sample_fromExternal w (mkTx 7 (RotateVaultKey 44 ""))
    = Some InvalidInputProof
  ∧ view (getVaultKey 7) (Ledger.next sample_this sample_fromExternal w
                            (mkTx 7 (RotateVaultKey 44 ""))) = Ok 43.
Proof.
  intros w.
  pose proof (rotateVaultKey_spec sample_this sample_fromExternal sample_world 7 43 "proof")
    as (_ & _ & H1).
  pose proof (rotateVaultKey_spec sample_this sample_fromExternal w 7 44 "")
    as (_ & H2 & _).
  destruct (H1 43 eq_refl eq_refl) as [H3 _].
  destruct (H2 eq_refl eq_refl) as [H4 H5].
  split; [exact H3|]. split; [exact H4|]. rewrite H5. exact H3.
Defined.

Lemma event_log_mirrors_storage_witness :
  stored_indices 7 (logs sample_world) = [0; 1]
  ∧ length (created_events 7 (logs sample_world)) = 1%nat.
Proof.
  apply (event_log_mirrors_storage sample_this sample_fromExternal sample_world 7).
  exact sample_world_reachable.
Defined.

Lemma createVault_only_once_witness :
  Ledger.outcome sample_this sample_fromExternal
    (Ledger.run sample_this sample_fromExternal
       (Ledger.next sample_this sample_fromExternal (genesis ∅) (mkTx 7 (CreateVault 41 "proof")))
       [mkTx 8 (CreateVault 50 "proof"); mkTx 7 (StoreSecret "x")])
    (mkTx 7 (CreateVault 42 "another proof"))
  = Some VaultAlreadyExists.
Proof.
  apply (createVault_only_once sample_this sample_fromExternal). reflexivity.
Defined.

End LedgerExtras.

(** ** Part VI: further properties of the cipher helpers *)

Module CipherExtras.
Import Cipher CipherFacts.

Ltac Zify.zify_post_hook ::= Z.to_euclidean_division_equations.

(** X9.  [base64ToBytes] undoes [bytesToBase64] on every byte array, the
    empty one included, and neither step throws. *)
Theorem base64_round_trip (bytes : list byte) :
  and_then (bytesToBase64 bytes) base64ToBytes = Resolved bytes.
Proof. rewrite bytesToBase64_text. cbn [and_then]. apply base64ToBytes_text. Qed.

Lemma base64_text_length (bs : list N) :
  length (base64_text bs) = (4 * ((length bs + 2) / 3))%nat.
Proof.
  unfold base64_text. rewrite length_app, length_map.
  induction bs as [|a|a b|a b c l IH] using list_ind3; try reflexivity.
  change (sextets (a :: b :: c :: l)) with
    ([a / 4; (a mod 4) * 16 + b / 16; (b mod 16) * 4 + c / 64; c mod 64] ++ sextets l).
  assert (padding (length (a :: b :: c :: l)) = padding (length l)) as ->.
  { unfold padding. cbn [length].
    replace (S (S (S (length l)))) with (length l + 1 * 3)%nat by lia.
    now rewrite Nat.Div0.mod_add. }
  rewrite length_app. cbn [length].
  replace (S (S (S (length l))) + 2)%nat with (length l + 2 + 1 * 3)%nat by lia.
  rewrite Nat.div_add by discriminate. lia.
Qed.

Lemma base64_char_in_alphabet (v : N) : is_Some (base64_value (base64_char v)).
Proof.
  destruct (N.lt_ge_cases v 64) as [Hv|Hv].
  - rewrite base64_value_char by assumption. eauto.
  - unfold base64_char. rewrite !(proj2 (N.ltb_ge _ _)) by lia.
    rewrite (proj2 (N.eqb_neq _ _)) by lia. cbn. eauto.
Qed.

(** X10.  The text [bytesToBase64] makes of n bytes has 4 * ceil(n / 3)
    units, each a character of the base64 alphabet or the padding [=]; so
    it holds no [:] and the fields of an envelope cannot be mistaken. *)
Theorem bytesToBase64_shape (bytes : list byte) :
  ∃ text, bytesToBase64 bytes = Resolved text
    ∧ length text = (4 * ((length bytes + 2) / 3))%nat
    ∧ Forall (λ c, is_Some (base64_value c) ∨ c = 61) text
    ∧ Forall (λ c, c ≠ colon) text.
Proof.
  eexists. split; [apply bytesToBase64_text|]. split; [|split].
  - now rewrite base64_text_length, length_map.
  - unfold base64_text. apply Forall_app. split.
    + apply Forall_forall. intros c Hc. apply list_elem_of_In, in_map_iff in Hc.
      destruct Hc as (v & <- & _). left. apply base64_char_in_alphabet.
    + destruct (padding_cases (length (map Byte.to_N bytes))) as [->|[->| ->]];
        repeat constructor; now right.
  - eapply Forall_impl; [apply base64_text_plain|]. now intros c [Hc _].
Qed.

(** *** Parsing the envelope *)

Lemma split_length (sep : N) (s : list N) :
  length (split sep s) = S (count_occ N.eq_dec s sep).
Proof.
  induction s as [|c s IH]; [reflexivity|]. cbn [split count_occ].
  destruct (N.eqb_spec c sep) as [->|Hne].
  - rewrite (proj2 (count_occ_cons_eq N.eq_dec s eq_refl)) || idtac.
    destruct (N.eq_dec sep sep); [|contradiction]. cbn [length]. now rewrite IH.
  - destruct (N.eq_dec c sep); [contradiction|].
    destruct (split sep s) as [|piece pieces] eqn:Hs; cbn [length] in *; [discriminate|].
    exact IH.
Qed.

Lemma split_two_inv (sep : N) (s p q : list N) (rest : list (list N)) :
  split sep s = p :: q :: rest →
  ∃ s', s = p ++ sep :: s' ∧ split sep s' = q :: rest.
Proof.
  revert p. induction s as [|c s IH]; intros p; cbn [split]; [discriminate|].
  destruct (N.eqb_spec c sep) as [->|Hne].
  - intros [= <- Hs]. eauto.
  - destruct (split sep s) as [|piece pieces] eqn:Hs; [discriminate|].
    intros [= <- ->]. destruct (IH piece eq_refl) as (s' & -> & Hs').
    exists s'. split; [reflexivity|assumption].
Qed.

Section Parsing.

Variable toLowerCase : list N → list N.
Variable sha256 : list byte → list byte.
Variable aes_gcm_encrypt : list byte → list byte → list byte → list byte.
Variable aes_gcm_decrypt : list byte → list byte → list byte → option (list byte).

Local Abbreviation encryptSecret := (Cipher.encryptSecret toLowerCase sha256 aes_gcm_encrypt).
Local Abbreviation decryptSecret := (Cipher.decryptSecret toLowerCase sha256 aes_gcm_decrypt).

Lemma rejects_without_prefix (address payload : list N) :
  ¬ (dv1 ++ [colon]) `prefix_of` payload →
  decryptSecret address payload = Rejected UnsupportedCiphertextFormat.
Proof.
  intros Hpre. unfold Cipher.decryptSecret.
  assert (negb (bool_decide (split colon payload !! 0%nat = Some dv1))
          || falsy (split colon payload !! 1%nat)
          || falsy (split colon payload !! 2%nat) = true) as ->; [|reflexivity].
  destruct (split colon payload) as [|p [|q parts]] eqn:Hs;
    [reflexivity|cbn [lookup list_lookup falsy]; now rewrite orb_true_r|].
  cbn [lookup list_lookup]. apply split_two_inv in Hs as (s' & -> & _).
  destruct (decide (p = dv1)) as [->|Hp].
  - destruct Hpre. exists s'. now rewrite <- app_assoc.
  - rewrite bool_decide_eq_false_2 by congruence. reflexivity.
Qed.

Lemma rejects_few_colons (address payload : list N) :
  (count_occ N.eq_dec payload colon < 2)%nat →
  decryptSecret address payload = Rejected UnsupportedCiphertextFormat.
Proof.
  intros Hcount. unfold Cipher.decryptSecret.
  pose proof (split_length colon payload) as Hl.
  rewrite (proj2 (lookup_ge_None (split colon payload) 2)) by lia.
  cbn [falsy]. now rewrite !orb_true_r.
Qed.

Lemma rejects_empty_iv (address rest : list N) :
  decryptSecret address (dv1 ++ colon :: colon :: rest)
  = Rejected UnsupportedCiphertextFormat.
Proof.
  unfold Cipher.decryptSecret.
  rewrite split_app by (repeat constructor; discriminate).
  cbn [split lookup list_lookup]. rewrite N.eqb_refl. cbn [lookup list_lookup falsy].
  now rewrite orb_true_r.
Qed.

(** X11.  [decryptSecret] refuses, with 'Unsupported ciphertext format' and
    for every address, a payload that does not begin with [dv1:], one with
    fewer than two colons, and one whose IV field is empty; no key is
    derived and nothing is decrypted on the way. *)
Theorem decryptSecret_rejects_malformed (address payload : list N) :
  ¬ (dv1 ++ [colon]) `prefix_of` payload
  ∨ (count_occ N.eq_dec payload colon < 2)%nat
  ∨ (dv1 ++ [colon; colon]) `prefix_of` payload →
  decryptSecret address payload = Rejected UnsupportedCiphertextFormat.
Proof.
  intros [Hpre|[Hcount|[rest ->]]].
  - now apply rejects_without_prefix.
  - now apply rejects_few_colons.
  - rewrite <- app_assoc. apply rejects_empty_iv.
Qed.

Lemma split_envelope_more (iv data : list byte) (more : list N) :
  split colon (envelope iv data ++ colon :: more) =
  dv1 :: base64_text (map Byte.to_N iv) :: base64_text (map Byte.to_N data)
      :: split colon more.
Proof.
  assert (∀ bs, Forall (λ c, c ≠ colon) (base64_text bs)) as Hplain.
  { intros bs. eapply Forall_impl; [apply base64_text_plain|]. now intros c [Hc _]. }
  unfold envelope. rewrite <- !app_assoc. cbn [app].
  rewrite (split_app colon dv1) by (repeat constructor; discriminate).
  rewrite split_app by apply Hplain. now rewrite split_app by apply Hplain.
Qed.

(** X12.  Only the first three fields of a payload are read: whatever
    follows a third colon after the text [encryptSecret] produced is passed
    over, and [decryptSecret] settles as it does on the text itself. *)
Theorem decryptSecret_ignores_trailing_fields
    (iv : list byte) (address plaintext other payload more : list N) :
  encryptSecret iv address plaintext = Resolved payload →
  decryptSecret other (payload ++ colon :: more) = decryptSecret other payload.
Proof.
  rewrite encryptSecret_envelope. intros [= <-].
  unfold Cipher.decryptSecret. rewrite split_envelope_more, split_envelope. reflexivity.
Qed.

End Parsing.

(** *** The text codecs *)

Lemma scalar_values_scalar (n : nat) (s : list N) :
  (length s ≤ n)%nat → Forall (λ c, c < 0x10000) s → Forall is_scalar_value (scalar_values s).
Proof.
  revert s. induction n as [|n IH]; intros s Hlen Hs.
  - destruct s; [constructor|cbn [length] in *; lia].
  - destruct s as [|c rest]; [constructor|]. cbn [scalar_values].
    inversion_clear Hs as [|? ? Hc Hrest].
    assert (is_scalar_value 0xFFFD) as Hrep by (right; split; [discriminate|reflexivity]).
    destruct (is_lead_surrogate c) eqn:Hlead.
    + destruct rest as [|d rest']; [constructor; [assumption|constructor]|].
      inversion_clear Hrest as [|? ? Hd Hrest'].
      destruct (is_trail_surrogate d) eqn:Htrail.
      * constructor; [|apply IH; [cbn [length] in *; lia|assumption]].
        surrogate_facts. rewrite N.shiftl_mul_pow2. unfold is_scalar_value. lia.
      * constructor; [assumption|].
        apply IH; [cbn [length] in *; lia|now constructor].
    + destruct (is_trail_surrogate c) eqn:Htrail.
      * constructor; [assumption|]. apply IH; [cbn [length] in *; lia|assumption].
      * constructor; [|apply IH; [cbn [length] in *; lia|assumption]].
        assert (c < 0xD800 ∨ 0xE000 ≤ c) as Hcs by (surrogate_facts; lia).
        unfold is_scalar_value. lia.
Qed.

(** X13.  Encoding a string and decoding the bytes gives the string read as
    scalar values, every unpaired surrogate replaced by U+FFFD, less a
    leading U+FEFF; so a well-formed string that does not start with U+FEFF
    comes back unchanged. *)
Theorem TextDecoder_after_TextEncoder (s : list N) :
  Forall (λ c, c < 0x10000) s →
  TextDecoder_decode (TextEncoder_encode s)
    = flat_map code_units (strip_BOM (scalar_values s))
  ∧ (isWellFormed s = true → head s ≠ Some 0xFEFF →
       TextDecoder_decode (TextEncoder_encode s) = s).
Proof.
  intros Hs. split; [|apply TextDecoder_TextEncoder].
  pose proof (scalar_values_scalar (length s) s (le_n _) Hs) as Hsc.
  unfold TextDecoder_decode, TextEncoder_encode.
  rewrite map_to_N_uint8 by now apply utf8_bytes_scalars_bounded.
  now rewrite utf8_decode_scalars.
Qed.

Lemma utf8_bytes_length (cp : N) :
  length (utf8_bytes cp) =
  if cp <? 0x80 then 1%nat else if cp <? 0x800 then 2%nat
  else if cp <? 0x10000 then 3%nat else 4%nat.
Proof.
  unfold utf8_bytes.
  destruct (cp <? 0x80); [reflexivity|]. destruct (cp <? 0x800); [reflexivity|].
  destruct (cp <? 0x10000); reflexivity.
Qed.

(** The UTF-8 form of a string has at least as many bytes as the string has
    code units and at most three times as many. *)
Lemma TextEncoder_encode_bounds (s : list N) :
  Forall (λ c, c < 0x10000) s →
  (length s ≤ length (TextEncoder_encode s) ≤ 3 * length s)%nat.
Proof.
  unfold TextEncoder_encode. rewrite length_map.
  remember (length s) as n eqn:Hn.
  assert (length s ≤ n)%nat as Hlen by lia. rewrite Hn. clear Hn.
  revert s Hlen. induction n as [|n IH]; intros s Hlen Hs.
  - destruct s; [simpl; lia|simpl in Hlen; lia].
  - destruct s as [|c rest]; [simpl; lia|]. cbn [scalar_values].
    inversion_clear Hs as [|? ? Hc Hrest].
    assert (length (utf8_bytes 0xFFFD) = 3%nat) as Hrep by reflexivity.
    destruct (is_lead_surrogate c) eqn:Hlead.
    + destruct rest as [|d rest']; [simpl; lia|].
      inversion_clear Hrest as [|? ? Hd Hrest'].
      destruct (is_trail_surrogate d) eqn:Htrail.
      * cbn [flat_map length]. rewrite length_app, utf8_bytes_length.
        surrogate_facts. rewrite N.shiftl_mul_pow2.
        rewrite !(proj2 (N.ltb_ge _ _)) by lia.
        specialize (IH rest'). cbn [length] in Hlen. lia.
      * cbn [flat_map]. rewrite length_app, Hrep.
        specialize (IH (d :: rest')). cbn [length] in *.
        assert (Forall (λ c, c < 65536) (d :: rest')) by now constructor. lia.
    + destruct (is_trail_surrogate c) eqn:Htrail.
      * cbn [flat_map]. rewrite length_app, Hrep.
        specialize (IH rest). cbn [length] in *. lia.
      * cbn [flat_map]. rewrite length_app, utf8_bytes_length.
        rewrite (proj2 (N.ltb_lt c 0x10000)) by assumption.
        specialize (IH rest). cbn [length] in *.
        destruct (c <? 0x80); [lia|]. destruct (c <? 0x800); lia.
Qed.

Section Length.

Variable toLowerCase : list N → list N.
Variable sha256 : list byte → list byte.
Variable aes_gcm_encrypt : list byte → list byte → list byte → list byte.

Hypothesis encrypt_length : ∀ key iv data,
  length (aes_gcm_encrypt key iv data) = (length data + 16)%nat.

Local Abbreviation encryptSecret := (Cipher.encryptSecret toLowerCase sha256 aes_gcm_encrypt).

(** X14.  The text [encryptSecret] returns for a plaintext of n UTF-8 bytes
    has 21 + 4 * ceil((n + 16) / 3) code units, whatever the address: four
    for [dv1:], sixteen for the IV, one colon and the base64 of the data and
    its tag.  n is at least the number of code units of the plaintext and at
    most three times that number. *)
Theorem encryptSecret_length (iv : list byte) (address plaintext : list N) :
  length iv = 12%nat → Forall (λ c, c < 0x10000) plaintext →
  ∃ payload,
    encryptSecret iv address plaintext = Resolved payload
    ∧ length payload = (21 + 4 * ((length (TextEncoder_encode plaintext) + 18) / 3))%nat
    ∧ (length plaintext ≤ length (TextEncoder_encode plaintext) ≤ 3 * length plaintext)%nat.
Proof.
  intros Hiv Hs. eexists. split; [apply encryptSecret_envelope|].
  split; [|now apply TextEncoder_encode_bounds].
  unfold envelope. rewrite !length_app, !base64_text_length, !length_map.
  rewrite encrypt_length, Hiv. unfold dv1. cbn [length].
  replace (length (TextEncoder_encode plaintext) + 16 + 2)%nat
    with (length (TextEncoder_encode plaintext) + 18)%nat by lia.
  change ((12 + 2) / 3)%nat with 4%nat.
  generalize ((length (TextEncoder_encode plaintext) + 18) / 3)%nat. intros q. lia.
Qed.

End Length.

(** *** Closed instances on the stand-in primitives *)

Local Abbreviation demo_encryptSecret :=
  (Cipher.encryptSecret demo_toLowerCase demo_sha256 demo_encrypt).
Local Abbreviation demo_decryptSecret :=
  (Cipher.decryptSecret demo_toLowerCase demo_sha256 demo_decrypt).

(** The text [encryptSecret] makes of "hi" under the sample IV and
    address. *)
Definition sample_payload : list N :=
  envelope sample_iv
    (demo_encrypt (Cipher.deriveKey demo_toLowerCase demo_sha256 sample_address) sample_iv
       (TextEncoder_encode [104; 105])).

Lemma sample_payload_encrypted :
  demo_encryptSecret sample_iv sample_address [104; 105] = Resolved sample_payload.
Proof. apply encryptSecret_envelope. Qed.

(** "dv2:AAAA:BBBB", "dv1:AAAA" and "dv1::BBBB". *)
Lemma decryptSecret_rejects_malformed_witness :
  demo_decryptSecret sample_address [100; 118; 50; 58; 65; 65; 65; 65; 58; 66; 66; 66; 66]
    = Rejected UnsupportedCiphertextFormat
  ∧ demo_decryptSecret sample_address [100; 118; 49; 58; 65; 65; 65; 65]
    = Rejected UnsupportedCiphertextFormat
  ∧ demo_decryptSecret sample_address [100; 118; 49; 58; 58; 66; 66; 66; 66]
    = Rejected UnsupportedCiphertextFormat.
Proof.
  split; [|split]; apply (decryptSecret_rejects_malformed demo_toLowerCase demo_sha256 demo_decrypt).
  - left. intros [rest H]. discriminate H.
  - right. left. vm_compute. lia.
  - right. right. exists [66; 66; 66; 66]. reflexivity.
Defined.

Lemma decryptSecret_ignores_trailing_fields_witness :
  demo_decryptSecret sample_address (sample_payload ++ colon :: [120; 58; 121])
  = demo_decryptSecret sample_address sample_payload.
Proof.
  apply (decryptSecret_ignores_trailing_fields demo_toLowerCase demo_sha256 demo_encrypt
           demo_decrypt sample_iv sample_address [104; 105]).
  exact sample_payload_encrypted.
Defined.

(** U+FEFF, "a", an unpaired U+DC00, U+1F600. *)
Lemma TextDecoder_after_TextEncoder_witness :
  TextDecoder_decode (TextEncoder_encode [0xFEFF; 97; 0xDC00; 0xD83D; 0xDE00])
  = [97; 0xFFFD; 0xD83D; 0xDE00].
Proof.
  apply (TextDecoder_after_TextEncoder [0xFEFF; 97; 0xDC00; 0xD83D; 0xDE00]).
  repeat constructor.
Defined.

(** "a", the euro sign and an unpaired surrogate: 1 + 3 + 3 bytes. *)
Definition sample_text : list N := [97; 0x20AC; 0xD800].

Lemma encryptSecret_length_witness :
  ∃ payload,
    demo_encryptSecret sample_iv sample_address sample_text = Resolved payload
    ∧ length payload = (21 + 4 * ((length (TextEncoder_encode sample_text) + 18) / 3))%nat
    ∧ (3 ≤ length (TextEncoder_encode sample_text) ≤ 9)%nat.
Proof.
  apply (encryptSecret_length demo_toLowerCase demo_sha256 demo_encrypt demo_encrypt_length
           sample_iv sample_address sample_text).
  - reflexivity.
  - repeat constructor.
Defined.

End CipherExtras.

(** ** Part VII: the component's use of the helpers and of the ledger *)

Module VaultApp.
Import Ledger Cipher.

(** The code units of an ASCII literal. *)
Definition js (s : string) : jsstring := map N_of_ascii (list_ascii_of_string s).

(** The code units [String.prototype.trim] strips: ECMAScript WhiteSpace
    (tab, VT, FF, the space separators, U+FEFF) and LineTerminator. *)
Definition is_trim_space (c : N) : bool :=
  (c =? 0x9) || (c =? 0xA) || (c =? 0xB) || (c =? 0xC) || (c =? 0xD)
  || (c =? 0x20) || (c =? 0xA0) || (c =? 0x1680)
  || ((0x2000 <=? c) && (c <=? 0x200A))
  || (c =? 0x2028) || (c =? 0x2029) || (c =? 0x202F) || (c =? 0x205F)
  || (c =? 0x3000) || (c =? 0xFEFF).

Fixpoint trimStart (s : jsstring) : jsstring :=
  match s with
  | [] => []
  | c :: rest => if is_trim_space c then trimStart rest else s
  end.

Definition trimEnd (s : jsstring) : jsstring := rev (trimStart (rev s)).

Definition trim (s : jsstring) : jsstring := trimEnd (trimStart s).

(** What the [storeSecret] handler of the component does up to its contract
    call: the message it shows when it stops early or fails, or the
    ciphertext it passes to [contract.storeSecret]. *)
Inductive StoreRequest :=
| Status (message : string)
| Send (ciphertext : jsstring).

(** What [syncVault] reads and writes of the component's state. *)
Record UiState := mkUi {
  ui_hasVault : bool;
  ui_ciphertexts : list jsstring;
  ui_statusMessage : option string;
  ui_isFetching : bool
}.

(** [Promise.all]: every value in order, or the rejection. *)
Fixpoint Promise_all {A} (ps : list (Result A)) : Result (list A) :=
  match ps with
  | [] => Ok []
  | Ok a :: rest =>
      match Promise_all rest with
      | Ok l => Ok (a :: l)
      | Revert e => Revert e
      end
  | Revert e :: _ => Revert e
  end.

(** [publicClient.readContract] of a read accessor: the call, and the value
    the client library decodes from what the contract returned. *)
Definition readContract {A B} (decode : A -> B) (m : M A) (w : World) : Result B :=
  match view m w with
  | Ok a => Ok (decode a)
  | Revert e => Revert e
  end.

Section Component.

Variable toLowerCase : jsstring -> jsstring.
Variable sha256 : Uint8Array -> Uint8Array.
Variable aes_gcm_encrypt : Uint8Array -> Uint8Array -> Uint8Array -> Uint8Array.
Variable aes_gcm_decrypt : Uint8Array -> Uint8Array -> Uint8Array -> option Uint8Array.

(** [Number(count)] of a bigint, as a natural number: exact up to 2^53 and
    rounded beyond, which is all that is taken from it. *)
Variable Number : N -> N.

(** How the client library turns a returned [bool], [uint256] and [string]
    into a JavaScript value.  The library is not part of this repository: a
    [bool] and a [uint256] keep their value, and the text of a [string] is
    whatever the library decodes from its bytes. *)
Variable decodeString : string -> jsstring.
Definition decodeBool (b : bool) : bool := b.
Definition decodeUint256 (n : N) : N := n.

Definition storeSecret (iv : Uint8Array) (vaultKey : option jsstring)
    (secretInput : jsstring) (signerPromise : bool) : StoreRequest :=
  if falsy vaultKey then Status "Decrypt the vault key before storing secrets."
  else if falsy (Some (trim secretInput)) then
    Status "Enter a secret message before encrypting."
  else if negb signerPromise then Status "Connect a wallet to store encrypted secrets."
  else
    match Cipher.encryptSecret toLowerCase sha256 aes_gcm_encrypt iv
            (default [] vaultKey) (trim secretInput) with
    | Resolved ciphertext => Send ciphertext
    | Rejected _ => Status "Failed to store secret. Please retry."
    end.

(** The effect that fills [decryptedSecrets]: a payload that cannot be
    decrypted shows a fixed message in its place. *)
Definition decryptAll (vaultKey : option jsstring) (ciphertexts : list jsstring)
  : list jsstring :=
  if falsy vaultKey then []
  else
    map (fun payload =>
      match Cipher.decryptSecret toLowerCase sha256 aes_gcm_decrypt
              (default [] vaultKey) payload with
      | Resolved plaintext => plaintext
      | Rejected _ => js "Unable to decrypt with the current key."
      end) ciphertexts.

(** [syncVault] against the ledger in world [w]. *)
Definition syncVault (address : option N) (publicClient : bool) (w : World)
    (ui : UiState) : UiState :=
  match address with
  | None => ui
  | Some address =>
      if negb publicClient then ui
      else
        let failed vaultExists :=
          mkUi vaultExists (ui_ciphertexts ui)
            (Some "Unable to sync vault data. Try again in a moment."%string) false in
        match readContract decodeBool (hasVault address) w with
        | Revert _ => failed (ui_hasVault ui)
        | Ok vaultExists =>
            if negb vaultExists then mkUi vaultExists [] None false
            else
              match readContract decodeUint256 (getSecretCount address) w with
              | Revert _ => failed vaultExists
              | Ok count =>
                  let total := N.to_nat (Number count) in
                  match Promise_all
                          (map (fun index =>
                                  readContract decodeString
                                    (getSecret address (N.of_nat index)) w)
                             (seq 0 total)) with
                  | Ok entries => mkUi vaultExists entries None false
                  | Revert _ => failed vaultExists
                  end
              end
        end
  end.

End Component.

End VaultApp.

Module VaultAppFacts.
Import Ledger LedgerFacts Cipher CipherFacts CipherExtras VaultApp.

Ltac Zify.zify_post_hook ::= Z.to_euclidean_division_equations.

(** *** [trim] *)

Lemma trim_space_plain (c : N) :
  is_trim_space c = true →
  is_lead_surrogate c = false ∧ is_trail_surrogate c = false ∧ c < 0x10000.
Proof.
  unfold is_trim_space, is_lead_surrogate, is_trail_surrogate. intros H.
  assert (c < 0xD800 ∨ c = 0xFEFF) as Hc.
  { repeat match goal with
    | H : _ || _ = true |- _ => apply orb_true_iff in H as [H|H]
    | H : _ && _ = true |- _ => apply andb_true_iff in H as [? ?]
    | H : (_ =? _) = true |- _ => apply N.eqb_eq in H
    | H : (_ <=? _) = true |- _ => apply N.leb_le in H
    end; lia. }
  destruct Hc as [Hc| ->]; [|repeat split].
  rewrite (proj2 (N.leb_gt 0xD800 c)), (proj2 (N.leb_gt 0xDC00 c)) by lia.
  repeat split. lia.
Qed.

Lemma trimStart_split (s : list N) :
  ∃ w, s = w ++ trimStart s ∧ Forall (λ c, is_trim_space c = true) w.
Proof.
  induction s as [|c s (w & Hs & Hw)]; [exists []; split; [reflexivity|constructor]|].
  cbn [trimStart]. destruct (is_trim_space c) eqn:Hc.
  - exists (c :: w). split; [cbn [app]; now rewrite <- Hs|now constructor].
  - exists []. split; [reflexivity|constructor].
Qed.

Lemma trimStart_head (s : list N) (c : N) :
  head (trimStart s) = Some c → is_trim_space c = false.
Proof.
  induction s as [|d s IH]; [discriminate|]. cbn [trimStart].
  destruct (is_trim_space d) eqn:Hd; [assumption|]. now intros [= <-].
Qed.

Lemma trimEnd_split (s : list N) :
  ∃ w, s = trimEnd s ++ w ∧ Forall (λ c, is_trim_space c = true) w.
Proof.
  destruct (trimStart_split (rev s)) as (w & Hs & Hw).
  exists (rev w). split.
  - unfold trimEnd. rewrite <- rev_app_distr, <- Hs. now rewrite rev_involutive.
  - apply Forall_forall. intros c Hc. rewrite Forall_forall in Hw.
    apply Hw. apply list_elem_of_In. apply in_rev. now apply list_elem_of_In.
Qed.

Lemma isWellFormed_trimStart (s : list N) :
  isWellFormed s = true → isWellFormed (trimStart s) = true.
Proof.
  induction s as [|c s IH]; [reflexivity|]. intros Hwf. cbn [trimStart].
  destruct (is_trim_space c) eqn:Hc; [|assumption].
  apply trim_space_plain in Hc as (Hl & Ht & _).
  cbn [isWellFormed] in Hwf. rewrite Hl in Hwf.
  apply andb_true_iff in Hwf as [_ Hwf]. auto.
Qed.

(** Trailing white space can be cut off a well-formed string. *)
Lemma isWellFormed_app_space (n : nat) (s w : list N) :
  (length s ≤ n)%nat → Forall (λ c, is_trim_space c = true) w →
  isWellFormed (s ++ w) = true → isWellFormed s = true.
Proof.
  revert s. induction n as [|n IH]; intros s Hlen Hw Hwf.
  - destruct s; [reflexivity|cbn [length] in Hlen; lia].
  - destruct s as [|c rest]; [reflexivity|].
    cbn [app isWellFormed] in *. destruct (is_lead_surrogate c) eqn:Hlead.
    + destruct rest as [|d rest'].
      * cbn [app] in Hwf. destruct w as [|d w']; [discriminate|].
        inversion_clear Hw as [|? ? Hd _]. apply trim_space_plain in Hd as (_ & Ht & _).
        rewrite Ht in Hwf. discriminate.
      * cbn [app] in Hwf. apply andb_true_iff in Hwf as [Hd Hwf]. rewrite Hd.
        apply IH; [cbn [length] in *; lia|assumption..].
    + apply andb_true_iff in Hwf as [Hc Hwf]. rewrite Hc.
      apply IH; [cbn [length] in *; lia|assumption..].
Qed.

Lemma isWellFormed_trim (s : list N) : isWellFormed s = true → isWellFormed (trim s) = true.
Proof.
  intros Hwf. apply isWellFormed_trimStart in Hwf. unfold trim.
  destruct (trimEnd_split (trimStart s)) as (w & Hs & Hw).
  apply (isWellFormed_app_space _ _ w (le_n _) Hw). now rewrite <- Hs.
Qed.

Lemma trim_head (s : list N) (c : N) : head (trim s) = Some c → is_trim_space c = false.
Proof.
  unfold trim. destruct (trimEnd_split (trimStart s)) as (w & Hs & _).
  intros Hc. apply (trimStart_head s). rewrite Hs.
  destruct (trimEnd (trimStart s)); [discriminate|exact Hc].
Qed.

(** *** The handlers *)

Lemma lookups_of_list {A B} (g : A → B) (f : option A → Result B) (l : list A) :
  (∀ a, f (Some a) = Ok (g a)) →
  Promise_all (map (λ index, f (l !! index)) (seq 0 (length l))) = Ok (map g l).
Proof.
  intros Hf. induction l as [|a l IH]; [reflexivity|].
  cbn [length seq map]. rewrite <- seq_shift, map_map.
  change ((a :: l) !! 0%nat) with (Some a). rewrite Hf. cbn [Promise_all].
  erewrite map_ext; [rewrite IH; reflexivity|]. reflexivity.
Qed.

Section ComponentFacts.

Variable this : N.
Variable fromExternal : N → N → string → option N.
Variable toLowerCase : list N → list N.
Variable sha256 : list byte → list byte.
Variable aes_gcm_encrypt : list byte → list byte → list byte → list byte.
Variable aes_gcm_decrypt : list byte → list byte → list byte → option (list byte).
Variable Number : N → N.
Variable decodeString : string → list N.

Hypothesis sha256_length : ∀ data, length (sha256 data) = 32%nat.
Hypothesis encrypt_length : ∀ key iv data,
  length (aes_gcm_encrypt key iv data) = (length data + 16)%nat.
Hypothesis decrypt_encrypt : ∀ key iv data,
  length key = 32%nat → length iv = 12%nat →
  aes_gcm_decrypt key iv (aes_gcm_encrypt key iv data) = Some data.
Hypothesis Number_exact : ∀ n, n ≤ 2 ^ 53 → Number n = n.

Local Abbreviation encryptSecret := (Cipher.encryptSecret toLowerCase sha256 aes_gcm_encrypt).
Local Abbreviation decryptSecret := (Cipher.decryptSecret toLowerCase sha256 aes_gcm_decrypt).
Local Abbreviation storeSecret := (VaultApp.storeSecret toLowerCase sha256 aes_gcm_encrypt).
Local Abbreviation decryptAll := (VaultApp.decryptAll toLowerCase sha256 aes_gcm_decrypt).
Local Abbreviation syncVault := (VaultApp.syncVault Number decodeString).

Lemma decryptSecret_recovers (iv : list byte) (key plaintext payload : list N) :
  length iv = 12%nat → isWellFormed plaintext = true → head plaintext ≠ Some 0xFEFF →
  encryptSecret iv key plaintext = Resolved payload →
  decryptSecret key payload = Resolved plaintext.
Proof.
  intros Hiv Hwf Hbom. rewrite encryptSecret_envelope. intros [= <-].
  rewrite (decryptSecret_same_address toLowerCase sha256 aes_gcm_encrypt aes_gcm_decrypt
             sha256_length encrypt_length decrypt_encrypt) by assumption.
  now rewrite TextDecoder_TextEncoder.
Qed.

(** X15.  With a vault key at hand, a wallet connected and a well-formed
    input that is not all white space, the handler sends a ciphertext from
    which [decryptSecret] with the same key recovers the input as trimmed:
    what is stored is the text without the white space (U+FEFF included) at
    its two ends. *)
Theorem storeSecret_sends_recoverable (iv : list byte) (vaultKey secretInput : list N) :
  length iv = 12%nat → vaultKey ≠ [] →
  isWellFormed secretInput = true → trim secretInput ≠ [] →
  ∃ ciphertext,
    storeSecret iv (Some vaultKey) secretInput true = Send ciphertext
    ∧ decryptSecret vaultKey ciphertext = Resolved (trim secretInput).
Proof.
  intros Hiv Hkey Hwf Htrim. unfold VaultApp.storeSecret.
  destruct vaultKey as [|k key]; [contradiction|]. cbn [falsy].
  change (default [] (Some (k :: key))) with (k :: key).
  destruct (trim secretInput) as [|c t] eqn:Ht; [contradiction|]. cbn [negb].
  rewrite <- Ht. rewrite encryptSecret_envelope. eexists. split; [reflexivity|].
  apply (decryptSecret_recovers iv); [assumption|now apply isWellFormed_trim| |].
  - rewrite Ht. cbn [head]. intros [= ->].
    pose proof (trim_head secretInput 0xFEFF) as Hh. rewrite Ht in Hh.
    specialize (Hh eq_refl). discriminate.
  - apply encryptSecret_envelope.
Qed.

(** X16.  [decryptAll] answers entry by entry and in order: a payload that
    [encryptSecret] made under the vault key shows its plaintext, a payload
    that does not begin with [dv1:] shows the fixed message, and neither
    disturbs its neighbours. *)
Theorem decryptAll_entrywise (vaultKey : list N) (entries : list (list N * list N)) :
  vaultKey ≠ [] →
  Forall (λ entry,
    (∃ iv, length iv = 12%nat ∧ isWellFormed (snd entry) = true
           ∧ head (snd entry) ≠ Some 0xFEFF
           ∧ encryptSecret iv vaultKey (snd entry) = Resolved (fst entry))
    ∨ (¬ (dv1 ++ [colon]) `prefix_of` fst entry
       ∧ snd entry = js "Unable to decrypt with the current key.")) entries →
  decryptAll (Some vaultKey) (map fst entries) = map snd entries.
Proof.
  intros Hkey Hentries. unfold VaultApp.decryptAll.
  destruct vaultKey as [|k key]; [contradiction|]. cbn [falsy].
  change (default [] (Some (k :: key))) with (k :: key).
  induction Hentries as [|[payload shown] entries Hentry _ IH]; [reflexivity|].
  cbn [map fst snd] in *. rewrite IH. f_equal.
  destruct Hentry as [(iv & Hiv & Hwf & Hbom & Henc)|[Hpre ->]].
  - now rewrite (decryptSecret_recovers iv (k :: key) shown payload).
  - now rewrite rejects_without_prefix.
Qed.

(** X17.  Against a reachable ledger holding fewer than 2^32 entries for the
    address, [syncVault] never takes its failure path: every read succeeds,
    and the state it leaves shows the [initialized] flag and, in order, the
    text the client library decodes from each stored ciphertext. *)
Theorem syncVault_shows_ledger (address : N) (w : World) (ui : UiState) :
  Ledger.reachable this fromExternal w →
  N.of_nat (length (ciphertexts (vaults w !!! address))) < 2 ^ 32 →
  syncVault (Some address) true w ui
  = mkUi (initialized (vaults w !!! address))
         (map decodeString (ciphertexts (vaults w !!! address)))
         None false.
Proof.
  intros Hw Hlen. unfold VaultApp.syncVault, readContract. cbn [negb].
  rewrite view_hasVault, view_getSecretCount. unfold decodeBool, decodeUint256.
  destruct (initialized (vaults w !!! address)) eqn:Hi; cbn [negb].
  - rewrite Number_exact by lia. rewrite Nat2N.id.
    erewrite map_ext; [|intros index; rewrite view_getSecret, Nat2N.id; reflexivity].
    rewrite (lookups_of_list decodeString
               (λ o, match match o with
                           | Some c => Ok c
                           | None => Revert SecretIndexOutOfBounds
                           end with
                     | Ok a => Ok (decodeString a)
                     | Revert e => Revert e
                     end));
      reflexivity.
  - now rewrite (uninitialized_empty this fromExternal w address Hw Hi).
Qed.

End ComponentFacts.

(** *** Closed instances *)

(** The input "  hi", a line feed and U+FEFF around it, under the sample key:
    what is sent decrypts to "hi". *)
Lemma storeSecret_sends_recoverable_witness :
  ∃ ciphertext,
    VaultApp.storeSecret demo_toLowerCase demo_sha256 demo_encrypt sample_iv
      (Some sample_address) [0xFEFF; 32; 104; 105; 10] true = Send ciphertext
    ∧ Cipher.decryptSecret demo_toLowerCase demo_sha256 demo_decrypt sample_address ciphertext
      = Resolved [104; 105].
Proof.
  apply (storeSecret_sends_recoverable demo_toLowerCase demo_sha256 demo_encrypt demo_decrypt
           demo_sha256_length demo_encrypt_length demo_decrypt_encrypt
           sample_iv sample_address [0xFEFF; 32; 104; 105; 10]).
  - reflexivity.
  - discriminate.
  - reflexivity.
  - discriminate.
Defined.

Lemma decryptAll_entrywise_witness :
  VaultApp.decryptAll demo_toLowerCase demo_sha256 demo_decrypt (Some sample_address)
    [js "not an envelope"; sample_payload; js "dv2:AAAA:BBBB"]
  = [js "Unable to decrypt with the current key."; [104; 105];
     js "Unable to decrypt with the current key."].
Proof.
  apply (decryptAll_entrywise demo_toLowerCase demo_sha256 demo_encrypt demo_decrypt
           demo_sha256_length demo_encrypt_length demo_decrypt_encrypt sample_address
           [(js "not an envelope", js "Unable to decrypt with the current key.");
            (sample_payload, [104; 105]);
            (js "dv2:AAAA:BBBB", js "Unable to decrypt with the current key.")]).
  - discriminate.
  - constructor; [|constructor; [|constructor; [|constructor]]].
    + right. split; [|reflexivity]. intros [rest H]. discriminate H.
    + left. exists sample_iv. split; [reflexivity|]. split; [reflexivity|].
      split; [discriminate|]. exact sample_payload_encrypted.
    + right. split; [|reflexivity]. intros [rest H]. discriminate H.
Defined.

(** The stored ciphertexts of the sample world are ASCII, on which the
    decoding is [js]. *)
Lemma syncVault_shows_ledger_witness :
  VaultApp.syncVault (λ n, n) js (Some 7) true sample_world (mkUi false [] None true)
  = mkUi true [js "dv1:iv1:payload1"; js "dv1:iv2:payload2"] None false
  ∧ VaultApp.syncVault (λ n, n) js (Some 8) true sample_world
      (mkUi true [js "stale"] None true)
  = mkUi false [] None false.
Proof.
  split;
    apply (syncVault_shows_ledger sample_this sample_fromExternal (λ n, n) js
             (λ n _, eq_refl));
    try exact sample_world_reachable; vm_compute; reflexivity.
Defined.

End VaultAppFacts.
